(** * The experience pipeline and training control loop of dqn_main.cpp

    A shallow embedding of [CalculateEpsilon], [PlayOneEpisode], [Evaluate]
    and the training loop of [main], together with the properties the
    specification states about them.

    Conventions of the embedding.
    - A C++ [int] (and a gflags [int32]) is a [Z]; arithmetic on it is
      written with the 32-bit wrap-around ([add32], [sub32]).  Signed
      overflow is undefined in C++; the theorems that depend on such a sum
      assume it is in range.
    - A C++ [double] that is only ever a finite value is a rational [Q],
      computed exactly: rounding and overflow are not modelled, and a flag
      that is a [double] is taken to be finite.  A [double] that comes out
      of a division is a [double]: [None] stands for the NaN or the
      infinity that IEEE arithmetic yields on a zero divisor.
    - [ALEInterface] and [dqn::DQN] are external classes: they are type
      classes here.  The trace records the calls [SelectAction],
      [UpdateRandom], [RememberEpisode] and [Snapshot] of the agent, the
      resets of the emulator and the lines logged.  It does not record the
      calls of [dqn.ObscureScreen]: what they do to a frame is in the
      store.
    - A [dqn::FrameDataSp] is a shared pointer: frames live in a store and
      are named by their index, so that aliasing is kept. *)

From Stdlib Require Import ZArith QArith Qabs Lia Lqa Bool.
From Stdlib Require Import PrimFloat Uint63.
From stdpp Require Import base tactics option list gmap strings.

Local Open Scope Z_scope.

(** ** Machine integers *)

Module Int32.

Definition INT_MIN : Z := - 2 ^ 31.
Definition INT_MAX : Z := 2 ^ 31 - 1.

Definition in_range (z : Z) : Prop := INT_MIN <= z <= INT_MAX.

(** Two's complement reduction of an integer to 32 bits. *)
Definition wrap (z : Z) : Z := (z + 2 ^ 31) mod 2 ^ 32 - 2 ^ 31.

Definition add32 (a b : Z) : Z := wrap (a + b).
Definition sub32 (a b : Z) : Z := wrap (a - b).

(** The conversion of an [int] to [size_t] (64 bits, unsigned) that C++
    applies when the two are compared. *)
Definition to_size_t (z : Z) : Z := z mod 2 ^ 64.

End Int32.

Import Int32.

(** ** Doubles *)

(** [None] is a NaN or an infinity. *)
Definition double : Type := option Q.

(** Division of two finite doubles. *)
Definition ddiv (a b : Q) : double :=
  if Qeq_bool b 0 then None else Some (a / b)%Q.

(** [a > b] on doubles; a comparison with NaN is false. *)
Definition dgt (a : double) (b : Q) : bool :=
  match a with
  | Some x => negb (Qle_bool x b)
  | None => false
  end.

(** The sign of a rational, as a rational. *)
Definition Qsign (q : Q) : Q := inject_Z (Z.sgn (Qnum q)).

(** [int(x)]: truncation toward zero. *)
Definition Qtrunc (q : Q) : Z := Z.quot (Qnum q) (Zpos (Qden q)).

(** [int(x)] on a double, with the range of [int]: within it the value is
    the truncation; out of it the conversion is undefined in C++, and the
    value taken here is the one that the conversion instruction of the x86
    gives, [INT_MIN]. *)
Definition int_of_double (q : Q) : Z :=
  let t := Qtrunc q in
  if (INT_MIN <=? t) && (t <=? INT_MAX) then t else INT_MIN.

(** ** Command-line flags *)

Record Flags := {
  FLAGS_explore : Z;
  FLAGS_epsilon : Q;
  FLAGS_memory_threshold : Z;
  FLAGS_skip_frame : Z;
  FLAGS_update_frequency : Z;
  FLAGS_frames_per_timestep : Z;
  FLAGS_evaluate_with_epsilon : Q;
  FLAGS_evaluate_freq : Z;
  FLAGS_repeat_games : Z;
  FLAGS_obscure_size : Z;
  FLAGS_resume : bool
}.

(** The defaults of the DEFINE_ lines. *)
Definition default_flags : Flags := {|
  FLAGS_explore := 1000000;
  FLAGS_epsilon := 1 # 10;
  FLAGS_memory_threshold := 50000;
  FLAGS_skip_frame := 4;
  FLAGS_update_frequency := 1;
  FLAGS_frames_per_timestep := 4;
  FLAGS_evaluate_with_epsilon := 5 # 100;
  FLAGS_evaluate_freq := 50000;
  FLAGS_repeat_games := 10;
  FLAGS_obscure_size := 0;
  FLAGS_resume := true
|}.

(** ** The exploration schedule *)

Definition CalculateEpsilon (flags : Flags) (iter : Z) : double :=
  if iter <? FLAGS_explore flags then
    match ddiv (inject_Z iter) (inject_Z (FLAGS_explore flags)) with
    | Some r => Some (1 - (1 - FLAGS_epsilon flags) * r)%Q
    | None => None
    end
  else Some (FLAGS_epsilon flags).

(** The same function on IEEE binary64 numbers, with their rounding: it is
    there to run the schedule as the machine does. *)
Module Binary64.

(** [static_cast<double>(iter)], which is exact on an [int]. *)
Definition of_int (z : Z) : float :=
  if z <? 0 then PrimFloat.opp (PrimFloat.of_uint63 (Uint63.of_Z (- z)))
  else PrimFloat.of_uint63 (Uint63.of_Z z).

Definition CalculateEpsilon (explore : Z) (epsilon : float) (iter : Z) : float :=
  if iter <? explore
  then (1 - (1 - epsilon) * (of_int iter / of_int explore))%float
  else epsilon.

End Binary64.

(** ** Outcomes of a run *)

(** A run ends normally, aborts (a failed [CHECK] or [assert], an integer
    division by zero), or is cut off by the step bound of the embedding. *)
Inductive Failure := CheckFailed | AssertFailed | DivideByZero.

Inductive Result (A : Type) : Type :=
  | Done (a : A)
  | Fatal (f : Failure)
  | OutOfFuel.
Arguments Done {A} a.
Arguments Fatal {A} f.
Arguments OutOfFuel {A}.

#[global] Instance Result_ret : MRet Result := fun A a => Done a.
#[global] Instance Result_bind : MBind Result := fun A B k m =>
  match m with
  | Done a => k a
  | Fatal f => Fatal f
  | OutOfFuel => OutOfFuel
  end.

Definition check (b : bool) (f : Failure) : Result unit :=
  if b then Done tt else Fatal f.

(** ** Frames *)

(** A [FrameDataSp] names a frame of the store; [PreprocessScreen] makes a
    new one. *)
Definition FrameDataSp : Type := nat.

Definition alloc {A} (store : list A) (x : A) : list A * FrameDataSp :=
  (store ++ [x], length store).

(** The name of a snapshot: the save path, or the save path followed by
    [_HiScore] and a number. *)
Inductive SnapshotName := SavePath | HiScore (n : Z).

(** ** The emulator *)

Class ALEInterface := {
  ALE : Type;
  Action : Type;
  ALEScreen : Type;
  PLAYER_A_NOOP : Action;
  game_over : ALE -> bool;
  lives : ALE -> Z;
  getScreen : ALE -> ALEScreen;
  (** [act] returns the raw score delta, an [int]. *)
  act : ALE -> Action -> ALE * Z;
  reset_game : ALE -> ALE
}.

Record Transition {emulator : ALEInterface} := mkTransition {
  t_frame : FrameDataSp;
  t_action : Action;
  t_reward : Q;
  t_next : option FrameDataSp
}.
Arguments mkTransition {emulator} t_frame t_action t_reward t_next.

Definition Episode {emulator : ALEInterface} : Type := list Transition.

(** ** The agent *)

(** The agent reads frames through the pointers it is given, so the calls
    that look at frames take the store. *)
Class DQNInterface {emulator : ALEInterface} := {
  DQN : Type;
  FrameData : Type;
  PreprocessScreen : ALEScreen -> FrameData;
  (** what [ObscureScreen] leaves in the frame it is given *)
  ObscureScreen : FrameData -> Z -> FrameData;
  SelectAction :
    DQN -> list FrameData -> list FrameDataSp -> double -> bool -> DQN * Action;
  memory_size : DQN -> Z;
  UpdateRandom : DQN -> list FrameData -> DQN;
  RememberEpisode : DQN -> Episode -> DQN;
  current_iteration : DQN -> Z;
  Snapshot : DQN -> SnapshotName -> bool -> bool -> DQN
}.

(** ** The state of a run *)

(** The calls [SelectAction], [UpdateRandom], [RememberEpisode] and
    [Snapshot] of the agent, the resets of the emulator and the lines
    logged, newest first.  The calls of [dqn.ObscureScreen] are not among
    them: they show in the store. *)
Inductive Event {emulator : ALEInterface} {agent : DQNInterface} :=
  | EvSelectAction (input_frames : list FrameDataSp)
      (seen : list (option FrameData)) (epsilon : double)
      (continuation : bool) (chosen : Action)
  | EvUpdateRandom
  | EvRememberEpisode (e : Episode)
  | EvResetGame
  | EvSnapshot (name : SnapshotName) (with_memory with_solver : bool)
  | EvLogEpisode (episode : Z) (score : Q) (epsilon : double)
      (iter replay_mem_size : Z)
  | EvLogEvaluation (avg_score stddev : double)
  | EvLogHiScore (iter : Z) (avg_score : Q).

Record World {emulator : ALEInterface} {agent : DQNInterface} := mkWorld {
  ale : ALE;
  dqn : DQN;
  store : list FrameData;
  trace : list Event
}.
Arguments mkWorld {emulator agent} ale dqn store trace.

(** The locals of [PlayOneEpisode] that live across iterations. *)
Record Locals {emulator : ALEInterface} := mkLocals {
  remaining_lives : Z;
  past_frames : list FrameDataSp;
  episode : Episode;
  current_frame : FrameDataSp;
  total_score : Q;
  first_action : bool;
  frame : Z
}.
Arguments mkLocals {emulator} remaining_lives past_frames episode current_frame
  total_score first_action frame.

(** The locals of one iteration, as they are when it ends. *)
Record StepInfo {emulator : ALEInterface} := mkStepInfo {
  action : Action;
  immediate_score : Q;
  reward : Q
}.
Arguments mkStepInfo {emulator} action immediate_score reward.

(** The events of the iterations of an episode: the calls of [SelectAction]
    and of [UpdateRandom], the two calls of the loop that the trace holds. *)
Definition step_event {emulator : ALEInterface} {agent : DQNInterface}
    (e : Event) : Prop :=
  match e with
  | EvSelectAction _ _ _ _ _ | EvUpdateRandom => True
  | _ => False
  end.

(** An episode all of whose transitions have a next frame. *)
Definition open_episode {emulator : ALEInterface} (e : Episode) : Prop :=
  Forall (fun t => is_Some (t_next t)) e.

(** The name of the frame that the next iteration pushes: in update mode the
    frame captured by the iteration before, otherwise the frame that is made
    next. *)
Definition next_pushed {emulator : ALEInterface} {agent : DQNInterface}
    (update : bool) (w : World) (l : Locals) : FrameDataSp :=
  if update then current_frame l else length (store w).

(** ** One episode *)

(** [while (past_frames.size() > FLAGS_frames_per_timestep) pop_front()]:
    the flag is converted to [size_t] for the comparison. *)
Fixpoint pop_front_while_over (W : Z) (q : list FrameDataSp) : list FrameDataSp :=
  match q with
  | [] => []
  | _ :: q' =>
      if Z.of_nat (length q) >? to_size_t W then pop_front_while_over W q' else q
  end.

(** Lines 126-131: the reward and the new value of [remaining_lives]. *)
Definition ShapeReward (immediate_score : Q) (lives_now remaining_lives : Z)
  : Q * Z :=
  let reward :=
    if Qeq_bool immediate_score 0 then 0%Q
    else (immediate_score / Qabs immediate_score)%Q in
  if lives_now <? remaining_lives then ((-1)%Q, lives_now)
  else (reward, remaining_lives).

Section Runner.

Context {emulator : ALEInterface} {agent : DQNInterface}.
Variable flags : Flags.

(** [dqn::PreprocessScreen(ale.getScreen())], then [ObscureScreen] on the
    new frame when the flag asks for it (lines 80-84 and 89-93). *)
Definition ObserveFrame (w : World) : World * FrameDataSp :=
  let screen := getScreen (ale w) in
  let '(st, p) := alloc (store w) (PreprocessScreen screen) in
  let st :=
    if FLAGS_obscure_size flags >? 0
    then alter (fun f => ObscureScreen f (FLAGS_obscure_size flags)) p st
    else st in
  (mkWorld (ale w) (dqn w) st (trace w), p).

(** Lines 112-118: the action, and the new value of [first_action]. *)
Definition ChooseAction (epsilon : double) (w : World) (l : Locals)
  : World * bool * Action :=
  if Z.of_nat (length (past_frames l)) =? to_size_t (FLAGS_frames_per_timestep flags)
  then
    let input_frames := past_frames l in
    let '(d, a) :=
      SelectAction (dqn w) (store w) input_frames epsilon (negb (first_action l)) in
    (mkWorld (ale w) d (store w)
       (EvSelectAction input_frames ((fun p => store w !! p) <$> input_frames)
          epsilon (negb (first_action l)) a :: trace w),
     false, a)
  else (w, first_action l, PLAYER_A_NOOP).

(** Lines 119-122: [n] bounds the number of repetitions. *)
Fixpoint RepeatAction (n : nat) (a : ALE) (action : Action) (immediate_score : Q)
  : ALE * Q :=
  match n with
  | O => (a, immediate_score)
  | S n' =>
      if game_over a then (a, immediate_score)
      else
        let '(a', r) := act a action in
        RepeatAction n' a' action (immediate_score + inject_Z r)%Q
  end.

(** Lines 145-148.  The remainder is only computed when the memory is over
    the threshold. *)
Definition LearningUpdate (w : World) (frame : Z) : Result World :=
  if memory_size (dqn w) >? FLAGS_memory_threshold flags then
    _ ← check (negb (FLAGS_update_frequency flags =? 0)) DivideByZero;
    if Z.rem frame (FLAGS_update_frequency flags) =? 0 then
      mret (mkWorld (ale w) (UpdateRandom (dqn w) (store w)) (store w)
              (EvUpdateRandom :: trace w))
    else mret w
  else mret w.

(** Lines 133-150, when [update] holds. *)
Definition RecordTransition (w : World) (l : Locals) (action : Action) (reward : Q)
  : Result (World * Locals) :=
  let screen := getScreen (ale w) in
  let '(st, next_frame) := alloc (store w) (PreprocessScreen screen) in
  let st :=
    if FLAGS_obscure_size flags >? 0
    then alter (fun f => ObscureScreen f (FLAGS_obscure_size flags))
           (current_frame l) st
    else st in
  let transition :=
    if game_over (ale w)
    then mkTransition (current_frame l) action reward None
    else mkTransition (current_frame l) action reward (Some next_frame) in
  let episode := episode l ++ [transition] in
  w ← LearningUpdate (mkWorld (ale w) (dqn w) st (trace w)) (frame l);
  mret (w, mkLocals (remaining_lives l) (past_frames l) episode next_frame
             (total_score l) (first_action l) (frame l)).

(** The store once the next frame has been made and [ObscureScreen] has
    been called (lines 135-139). *)
Definition store_after_lookahead (w : World) (l : Locals) : list FrameData :=
  let st := store w ++ [PreprocessScreen (getScreen (ale w))] in
  if FLAGS_obscure_size flags >? 0
  then alter (fun f => ObscureScreen f (FLAGS_obscure_size flags))
         (current_frame l) st
  else st.

(** Lines 88-111: the frame of this iteration is pushed on the stack and
    the stack is cut to the window.  The dumps of the screen to files
    (lines 96-107) are left out: they read the state and change none of
    it. *)
Definition AdvanceStack (update : bool) (w : World) (l : Locals)
  : Result (World * Locals) :=
  let '(w, current_frame) :=
    if update then (w, current_frame l) else ObserveFrame w in
  let past_frames :=
    pop_front_while_over (FLAGS_frames_per_timestep flags)
      (past_frames l ++ [current_frame]) in
  _ ← check (Z.of_nat (length past_frames)
              <=? to_size_t (FLAGS_frames_per_timestep flags)) CheckFailed;
  mret (w, mkLocals (remaining_lives l) past_frames (episode l) current_frame
             (total_score l) (first_action l) (frame l)).

(** The body of the loop of [PlayOneEpisode] (lines 88-150). *)
Definition LoopBody (epsilon : double) (update : bool) (w : World) (l : Locals)
  : Result (World * Locals * StepInfo) :=
  '(w, l) ← AdvanceStack update w l;
  let '(w, first_action, action) := ChooseAction epsilon w l in
  let '(a, immediate_score) :=
    RepeatAction (Z.to_nat (add32 (FLAGS_skip_frame flags) 1)) (ale w) action 0%Q in
  let w := mkWorld a (dqn w) (store w) (trace w) in
  let total_score := (total_score l + immediate_score)%Q in
  let '(reward, remaining_lives) :=
    ShapeReward immediate_score (lives (ale w)) (remaining_lives l) in
  _ ← check (Qle_bool reward 1 && Qle_bool (-1) reward) AssertFailed;
  let l := mkLocals remaining_lives (past_frames l) (episode l) (current_frame l)
             total_score first_action (frame l) in
  '(w, l) ← (if update then RecordTransition w l action reward else mret (w, l));
  mret (w, l, mkStepInfo action immediate_score reward).

(** [++frame] *)
Definition next_iteration (l : Locals) : Locals :=
  mkLocals (remaining_lives l) (past_frames l) (episode l) (current_frame l)
    (total_score l) (first_action l) (add32 (frame l) 1).

(** The loop of [PlayOneEpisode]: [fuel] bounds the number of iterations. *)
Fixpoint PlayLoop (fuel : nat) (epsilon : double) (update : bool)
    (w : World) (l : Locals) : Result (World * Locals) :=
  if game_over (ale w) then mret (w, l)
  else
    match fuel with
    | O => OutOfFuel
    | S fuel' =>
        '(w, l, _) ← LoopBody epsilon update w l;
        PlayLoop fuel' epsilon update w (next_iteration l)
    end.

(** The states the loop is in after a number of iterations. *)
Inductive LoopReaches (epsilon : double) (update : bool) (w0 : World) (l0 : Locals)
  : nat -> World -> Locals -> Prop :=
  | reaches_start : LoopReaches epsilon update w0 l0 0 w0 l0
  | reaches_step k w l w' l' info :
      LoopReaches epsilon update w0 l0 k w l ->
      game_over (ale w) = false ->
      LoopBody epsilon update w l = Done (w', l', info) ->
      LoopReaches epsilon update w0 l0 (S k) w' (next_iteration l').

(** The locals as the loop is entered (lines 77-86). *)
Definition InitialLocals (w : World) (current_frame : FrameDataSp) : Locals :=
  mkLocals (lives (ale w)) [] [] current_frame 0%Q true 0.

(** The state in which the loop is entered (lines 77-86). *)
Definition EnterLoop (w : World) : World * Locals :=
  let '(w, current_frame) := ObserveFrame w in
  (w, InitialLocals w current_frame).

Definition PlayOneEpisode (fuel : nat) (w : World) (epsilon : double)
    (update : bool) : Result (World * Q) :=
  _ ← check (negb (game_over (ale w))) CheckFailed;
  let '(w, current_frame) := ObserveFrame w in
  '(w, l) ← PlayLoop fuel epsilon update w (InitialLocals w current_frame);
  let w :=
    if update
    then mkWorld (ale w) (RememberEpisode (dqn w) (episode l)) (store w)
           (EvRememberEpisode (episode l) :: trace w)
    else w in
  mret (mkWorld (reset_game (ale w)) (dqn w) (store w)
          (EvResetGame :: trace w),
        total_score l).

(** ** Evaluation *)

(** [sqrt] of <cmath>, on the finite non-negative values. *)
Variable sqrt : Q -> Q.

Definition dsqrt (x : double) : double :=
  q ← x; if Qle_bool 0 q then Some (sqrt q) else None.

(** [scores] holds the score of the one episode that is played. *)
Definition Evaluate (fuel : nat) (w : World) : Result (World * double) :=
  '(w, score) ←
    PlayOneEpisode fuel w (Some (FLAGS_evaluate_with_epsilon flags)) false;
  let scores : list Q := [] ++ [score] in
  let total_score := foldl Qplus 0%Q scores in
  let avg_score := ddiv total_score (inject_Z (Z.of_nat (length scores))) in
  let stddev : double :=
    avg ← avg_score;
    Some (foldl (fun acc s => acc + (s - avg) * (s - avg))%Q 0%Q scores) in
  let stddev :=
    dsqrt (s ← stddev; ddiv s (inject_Z (sub32 (FLAGS_repeat_games flags) 1))) in
  mret (mkWorld (ale w) (dqn w) (store w)
          (EvLogEvaluation avg_score stddev :: trace w),
        avg_score).

(** ** The training loop of [main] *)

Definition do_Snapshot (w : World) (name : SnapshotName) (m s : bool) : World :=
  mkWorld (ale w) (Snapshot (dqn w) name m s) (store w)
    (EvSnapshot name m s :: trace w).

Definition log (w : World) (e : Event) : World :=
  mkWorld (ale w) (dqn w) (store w) (e :: trace w).

(** [std::numeric_limits<double>::lowest()] *)
Definition lowest : Q := - inject_Z (2 ^ 1024 - 2 ^ 971).

(** The locals of [main] that the loop changes. *)
Record TrainState := mkTrain {
  world : World;
  last_eval_iter : Z;
  episode_count : Z;
  best_score : Q
}.

(** The body of the [while] of [main] (lines 316-337). *)
Definition TrainingIteration (fuel : nat) (st : TrainState) : Result TrainState :=
  let epsilon := CalculateEpsilon flags (current_iteration (dqn (world st))) in
  '(w, score) ← PlayOneEpisode fuel (world st) epsilon true;
  let iter := current_iteration (dqn w) in
  let w := log w (EvLogEpisode (episode_count st) score epsilon iter
                    (memory_size (dqn w))) in
  let episode := add32 (episode_count st) 1 in
  if (negb (Qle_bool score (best_score st)) && (iter >=? FLAGS_explore flags))
     || (current_iteration (dqn w)
           >=? add32 (last_eval_iter st) (FLAGS_evaluate_freq flags))
  then
    '(w, avg_score) ← Evaluate fuel w;
    let '(w, best) :=
      if dgt avg_score (best_score st) then
        let avg := default 0%Q avg_score in
        let w := log w (EvLogHiScore (current_iteration (dqn w)) avg) in
        (do_Snapshot w (HiScore (int_of_double avg)) false false, avg)
      else (w, best_score st) in
    let w := do_Snapshot w SavePath true true in
    mret (mkTrain w (current_iteration (dqn w)) episode best)
  else mret (mkTrain w (last_eval_iter st) episode (best_score st)).

(** The [while] of [main]: [steps] bounds the number of episodes. *)
Fixpoint TrainingLoop (steps fuel : nat) (max_iter : Z) (st : TrainState)
  : Result TrainState :=
  if current_iteration (dqn (world st)) <? max_iter then
    match steps with
    | O => OutOfFuel
    | S steps' =>
        st ← TrainingIteration fuel st;
        TrainingLoop steps' fuel max_iter st
    end
  else mret st.

(** Lines 308-342 of [main]: [hi_score] is what [dqn::FindHiScore] finds. *)
Definition main_train (steps fuel : nat) (max_iter : Z) (hi_score : Q) (w : World)
  : Result World :=
  let best_score := if FLAGS_resume flags then hi_score else lowest in
  st ← TrainingLoop steps fuel max_iter (mkTrain w 0 0 best_score);
  let w := world st in
  if current_iteration (dqn w) >=? last_eval_iter st then
    '(w, _) ← Evaluate fuel w;
    mret (do_Snapshot w SavePath true true)
  else mret w.

End Runner.

(** ** A small emulator and agent

    Concrete instances of the two interfaces, on which the definitions
    above can be run.  A game is a script: each [act] consumes one entry,
    which gives the score delta and the number of lives left; the game is
    over when the script is exhausted.  The screen shows the number of
    entries left plus one, so no screen is blank.  The agent always picks
    action 1, counts its learning updates as iterations and the transitions
    it has been given as its memory, and obscures a frame by blanking it. *)

Module Toy.

Record Game := mkGame {
  script : list (Z * Z);
  lives_left : Z;
  cartridge : list (Z * Z) * Z
}.

Definition load (sc : list (Z * Z)) (lv : Z) : Game := mkGame sc lv (sc, lv).

#[global] Instance toy_ale : ALEInterface := {|
  ALE := Game;
  Action := nat;
  ALEScreen := Z;
  PLAYER_A_NOOP := 0%nat;
  game_over g := match script g with [] => true | _ => false end;
  lives g := lives_left g;
  getScreen g := Z.of_nat (length (script g)) + 1;
  act g _ :=
    match script g with
    | [] => (g, 0)
    | (delta, lv) :: rest => (mkGame rest lv (cartridge g), delta)
    end;
  reset_game g := mkGame (fst (cartridge g)) (snd (cartridge g)) (cartridge g)
|}.

#[global] Instance toy_dqn : DQNInterface := {|
  DQN := Z * Z;
  FrameData := Z;
  PreprocessScreen s := s;
  ObscureScreen _ _ := 0;
  SelectAction d _ _ _ _ := (d, 1%nat);
  memory_size d := snd d;
  UpdateRandom d _ := (fst d + 1, snd d);
  RememberEpisode d e := (fst d, snd d + Z.of_nat (length e));
  current_iteration d := fst d;
  Snapshot d _ _ _ := d
|}.

Definition start (sc : list (Z * Z)) (lv : Z) (iter mem : Z) : World :=
  mkWorld (load sc lv) (iter, mem) [] [].

Definition flags (W skip : Z) : Flags := {|
  FLAGS_explore := 10;
  FLAGS_epsilon := 1 # 10;
  FLAGS_memory_threshold := 0;
  FLAGS_skip_frame := skip;
  FLAGS_update_frequency := 2;
  FLAGS_frames_per_timestep := W;
  FLAGS_evaluate_with_epsilon := 5 # 100;
  FLAGS_evaluate_freq := 3;
  FLAGS_repeat_games := 3;
  FLAGS_obscure_size := 1;
  FLAGS_resume := false
|}.

(** The locals of [main] as its loop is entered on a fresh run. *)
Definition fresh (w : World) : TrainState := mkTrain w 0 0 lowest.

(** Five acts: a point, nothing, a lost life together with two points, a
    lost point, a last point. *)
Definition game1 : list (Z * Z) := [(1, 3); (0, 3); (2, 2); (-1, 2); (5, 2)].

End Toy.

(** ** Reading a trace *)

(** The calls of [SelectAction]. *)
Definition select_event {emulator : ALEInterface} {agent : DQNInterface}
    (e : Event) : Prop :=
  match e with
  | EvSelectAction _ _ _ _ _ => True
  | _ => False
  end.

(** The continuation flags that the calls of [SelectAction] were given,
    newest first. *)
Definition continuations {emulator : ALEInterface} {agent : DQNInterface}
    (tr : list Event) : list bool :=
  omap (fun e => match e with
                 | EvSelectAction _ _ _ c _ => Some c
                 | _ => None
                 end) tr.

(** The calls of [SelectAction] of a trace were all given frames that
    [ObscureScreen] has been through. *)
Definition shown_obscured {emulator : ALEInterface} {agent : DQNInterface}
    (size : Z) (e : Event) : Prop :=
  match e with
  | EvSelectAction _ seen _ _ _ =>
      Forall (fun o => exists x, o = Some (ObscureScreen x size)) seen
  | _ => True
  end.

(** ** Reading the emulator *)

(** The game after the calls of [act] with the actions [xs], first to last,
    and the sum of the score deltas that these calls returned. *)
Fixpoint play {emulator : ALEInterface} (a : ALE) (xs : list Action) : ALE * Z :=
  match xs with
  | [] => (a, 0)
  | x :: xs' =>
      let '(a1, r) := act a x in
      let '(a2, s) := play a1 xs' in
      (a2, r + s)
  end.

(** Each of these calls is made on a game that is not over. *)
Fixpoint alive {emulator : ALEInterface} (a : ALE) (xs : list Action) : bool :=
  match xs with
  | [] => true
  | x :: xs' => negb (game_over a) && alive (act a x).1 xs'
  end.

(** ** Reading the store *)

Section StoreReadings.

Context {emulator : ALEInterface} {agent : DQNInterface}.
Variable flags : Flags.

(** A store with a new frame at its end, [ObscureScreen] having been called
    on the frame [q] when the flag asks for it: what [ObserveFrame] makes of
    a store, with the new frame for [q], and what lines 135-139 make of it,
    with [current_frame] for [q]. *)
Definition grown (st : list FrameData) (raw : FrameData) (q : FrameDataSp)
  : list FrameData :=
  if FLAGS_obscure_size flags >? 0
  then alter (fun f => ObscureScreen f (FLAGS_obscure_size flags)) q (st ++ [raw])
  else st ++ [raw].

(** A frame that [ObscureScreen] has been through. *)
Definition obscured (f : FrameData) : Prop :=
  exists x, f = ObscureScreen x (FLAGS_obscure_size flags).

End StoreReadings.

(** ** The modes of [main] *)

Record ModeFlags := {
  FLAGS_evaluate : bool;
  FLAGS_gui : bool;
  FLAGS_time : bool
}.

(** What [main] does besides the calls recorded in the trace: the score it
    logs in evaluation mode with a window, and the call of [Benchmark]. *)
Inductive MainEvent := LogScore (score : Q) | CallBenchmark.

Section Modes.

Context {emulator : ALEInterface} {agent : DQNInterface}.
Variable flags : Flags.
Variable sqrt : Q -> Q.
(** [dqn.Benchmark()] *)
Variable Benchmark : DQN -> DQN.

(** Lines 292-342 of [main]. *)
Definition main_modes (m : ModeFlags) (steps fuel : nat) (max_iter : Z)
    (hi_score : Q) (w : World) : Result (World * list MainEvent) :=
  if FLAGS_evaluate m then
    if FLAGS_gui m then
      '(w, score) ←
        PlayOneEpisode flags fuel w (Some (FLAGS_evaluate_with_epsilon flags))
          false;
      mret (w, [LogScore score])
    else
      '(w, _) ← Evaluate flags sqrt fuel w;
      mret (w, [])
  else if FLAGS_time m then
    '(w, score) ←
      PlayOneEpisode flags fuel w (Some (FLAGS_evaluate_with_epsilon flags))
        true;
    mret (mkWorld (ale w) (Benchmark (dqn w)) (store w) (trace w),
          [CallBenchmark])
  else
    w ← main_train flags sqrt steps fuel max_iter hi_score w;
    mret (w, []).

End Modes.

(** ** Dumping a frame *)

Section Dump.

(** [dqn::kCroppedFrameDataSize], the number of bytes of a frame. *)
Variable kCroppedFrameDataSize : Z.
(** whether [ofs.open] succeeds on a file name *)
Variable opens : string -> bool.

(** The loop of [SaveInputFrame]: [count] writes are left, the next one is
    of [frame[i]].  Reading past the end of the frame gives no result. *)
Fixpoint write_bytes (frame : list Byte.byte) (i count : nat)
    (ofs : list Byte.byte) : option (list Byte.byte) :=
  match count with
  | O => Some ofs
  | S count' =>
      b ← frame !! i;
      write_bytes frame (S i) count' (ofs ++ [b])
  end.

(** The files after [SaveInputFrame(frame, filename)].  The stream is opened
    for output, which empties the file; on a stream that did not open the
    writes do nothing. *)
Definition SaveInputFrame (files : gmap string (list Byte.byte))
    (frame : list Byte.byte) (filename : string)
  : option (gmap string (list Byte.byte)) :=
  out ← write_bytes frame 0 (Z.to_nat kCroppedFrameDataSize) [];
  Some (if opens filename then <[filename := out]> files else files).

End Dump.

(** * Properties *)

(** ** Machine integers *)

Lemma wrap_in_range z : in_range z -> wrap z = z.
Proof.
  unfold in_range, wrap, INT_MIN, INT_MAX. intros Hz.
  rewrite Z.mod_small; lia.
Qed.

Lemma wrap_range z : in_range (wrap z).
Proof.
  unfold in_range, wrap, INT_MIN, INT_MAX.
  pose proof (Z.mod_pos_bound (z + 2 ^ 31) (2 ^ 32)). lia.
Qed.

Lemma to_size_t_nonneg z : 0 <= z < 2 ^ 64 -> to_size_t z = z.
Proof. intros Hz. unfold to_size_t. rewrite Z.mod_small; lia. Qed.

Lemma int_of_double_in_range q : in_range (Qtrunc q) -> int_of_double q = Qtrunc q.
Proof.
  unfold int_of_double, in_range. intros [Hlo Hhi]. cbv zeta.
  apply Z.leb_le in Hlo, Hhi. rewrite Hlo, Hhi. reflexivity.
Qed.

Lemma int_of_double_range q : in_range (int_of_double q).
Proof.
  unfold int_of_double, in_range. cbv zeta.
  destruct (Z.leb_spec INT_MIN (Qtrunc q)), (Z.leb_spec (Qtrunc q) INT_MAX);
    cbn [andb]; unfold INT_MIN, INT_MAX in *; lia.
Qed.

(** ** Properties of the exploration schedule *)

Section Schedule.

Local Open Scope Q_scope.

Lemma ddiv_Some (a b : Q) : ~ b == 0 -> ddiv a b = Some (a / b).
Proof.
  intros Hb. unfold ddiv.
  destruct (Qeq_bool b 0) eqn:E; [|reflexivity].
  apply Qeq_bool_iff in E. contradiction.
Qed.

Lemma inject_Z_pos (e : Z) : (0 < e)%Z -> 0 < inject_Z e.
Proof. intros He. change 0 with (inject_Z 0). now rewrite <- Zlt_Qlt. Qed.

(** The fraction of the decay window that has elapsed. *)
Lemma ratio_bounds (i e : Z) :
  (0 <= i < e)%Z -> 0 <= inject_Z i / inject_Z e /\ inject_Z i / inject_Z e <= 1.
Proof.
  intros [H0 Hlt].
  assert (He : 0 < inject_Z e) by (apply inject_Z_pos; lia).
  split.
  - apply Qle_shift_div_l; [exact He|].
    rewrite Qmult_0_l. change 0 with (inject_Z 0). rewrite <- Zle_Qle. exact H0.
  - apply Qle_shift_div_r; [exact He|].
    rewrite Qmult_1_l. rewrite <- Zle_Qle. lia.
Qed.

Lemma ratio_mono (i j e : Z) :
  (0 < e)%Z -> (i <= j)%Z -> inject_Z i / inject_Z e <= inject_Z j / inject_Z e.
Proof.
  intros He Hij. unfold Qdiv.
  apply Qmult_le_compat_r.
  - rewrite <- Zle_Qle. exact Hij.
  - apply Qlt_le_weak, Qinv_lt_0_compat, inject_Z_pos, He.
Qed.

Lemma CalculateEpsilon_decaying flags (i : Z) :
  (0 <= i < FLAGS_explore flags)%Z ->
  CalculateEpsilon flags i =
    Some (1 - (1 - FLAGS_epsilon flags) *
              (inject_Z i / inject_Z (FLAGS_explore flags))).
Proof.
  intros Hi. unfold CalculateEpsilon.
  destruct (Z.ltb_spec i (FLAGS_explore flags)) as [_|Hge]; [|lia].
  rewrite ddiv_Some; [reflexivity|].
  intros E. assert (H : 0 < inject_Z (FLAGS_explore flags)) by (apply inject_Z_pos; lia).
  rewrite E in H. now apply Qlt_irrefl in H.
Qed.

Lemma CalculateEpsilon_final flags (i : Z) :
  (FLAGS_explore flags <= i)%Z ->
  CalculateEpsilon flags i = Some (FLAGS_epsilon flags).
Proof.
  intros Hi. unfold CalculateEpsilon.
  destruct (Z.ltb_spec i (FLAGS_explore flags)) as [Hlt|_]; [lia|reflexivity].
Qed.

Lemma CalculateEpsilon_range flags (i : Z) :
  FLAGS_epsilon flags <= 1 -> (0 <= i)%Z ->
  exists e, CalculateEpsilon flags i = Some e /\ FLAGS_epsilon flags <= e /\ e <= 1.
Proof.
  intros Heps Hi.
  destruct (Z.lt_ge_cases i (FLAGS_explore flags)) as [Hlt|Hge].
  - eexists. split; [apply CalculateEpsilon_decaying; lia|].
    destruct (ratio_bounds i (FLAGS_explore flags)) as [Hr0 Hr1]; [lia|].
    set (r := inject_Z i / inject_Z (FLAGS_explore flags)) in *.
    set (eps := FLAGS_epsilon flags) in *.
    assert (Hm0 : 0 <= (1 - eps) * r).
    { apply Qmult_le_0_compat; [|exact Hr0].
      unfold Qminus. rewrite <- Qle_minus_iff. exact Heps. }
    assert (Hm1 : (1 - eps) * r <= (1 - eps) * 1).
    { rewrite !(Qmult_comm (1 - eps)). apply Qmult_le_compat_r; [exact Hr1|].
      unfold Qminus. rewrite <- Qle_minus_iff. exact Heps. }
    split; lra.
  - exists (FLAGS_epsilon flags). split; [apply CalculateEpsilon_final; lia|].
    split; [apply Qle_refl|exact Heps].
Qed.

Lemma CalculateEpsilon_mono flags (i j : Z) (ei ej : Q) :
  FLAGS_epsilon flags <= 1 -> (0 <= i <= j)%Z ->
  CalculateEpsilon flags i = Some ei -> CalculateEpsilon flags j = Some ej ->
  ej <= ei.
Proof.
  intros Heps Hij Hi Hj.
  destruct (Z.lt_ge_cases j (FLAGS_explore flags)) as [Hlt|Hge].
  - rewrite CalculateEpsilon_decaying in Hi, Hj by lia.
    injection Hi as <-. injection Hj as <-.
    pose proof (ratio_mono i j (FLAGS_explore flags) ltac:(lia) ltac:(lia)) as Hr.
    set (ri := inject_Z i / _) in *. set (rj := inject_Z j / _) in *.
    assert (Hm : (1 - FLAGS_epsilon flags) * ri <= (1 - FLAGS_epsilon flags) * rj).
    { rewrite !(Qmult_comm (1 - FLAGS_epsilon flags)).
      apply Qmult_le_compat_r; [exact Hr|lra]. }
    lra.
  - rewrite CalculateEpsilon_final in Hj by lia. injection Hj as <-.
    destruct (CalculateEpsilon_range flags i Heps ltac:(lia)) as (e & He & Hlo & _).
    rewrite Hi in He. injection He as <-. exact Hlo.
Qed.

(** C1.  With [FLAGS_epsilon <= 1], so that the interval
    [[FLAGS_epsilon, 1]] is not empty: on the non-negative iterations the
    schedule is defined and lies in that interval, it does not increase, it
    is [FLAGS_epsilon] from [FLAGS_explore] on, and for [FLAGS_explore = 0]
    it is [FLAGS_epsilon] everywhere (no division is made); with
    [FLAGS_explore = 1000000] and [FLAGS_epsilon = 0.1] it is 0.55 at
    iteration 500000. *)
Theorem CalculateEpsilon_schedule (flags : Flags) :
  FLAGS_epsilon flags <= 1 ->
  (forall i, (0 <= i)%Z ->
     exists e, CalculateEpsilon flags i = Some e /\
               FLAGS_epsilon flags <= e /\ e <= 1) /\
  (forall i j ei ej, (0 <= i <= j)%Z ->
     CalculateEpsilon flags i = Some ei -> CalculateEpsilon flags j = Some ej ->
     ej <= ei) /\
  (forall i, (FLAGS_explore flags <= i)%Z ->
     CalculateEpsilon flags i = Some (FLAGS_epsilon flags)) /\
  (FLAGS_explore flags = 0%Z ->
   forall i, (0 <= i)%Z -> CalculateEpsilon flags i = Some (FLAGS_epsilon flags)) /\
  (FLAGS_explore flags = 1000000%Z -> FLAGS_epsilon flags == 1 # 10 ->
   exists e, CalculateEpsilon flags 500000 = Some e /\ e == 55 # 100).
Proof.
  intros Heps. repeat split.
  - intros i Hi. apply CalculateEpsilon_range; assumption.
  - intros i j ei ej Hij Hi Hj. eapply CalculateEpsilon_mono; eassumption.
  - intros i Hi. apply CalculateEpsilon_final, Hi.
  - intros He i Hi. apply CalculateEpsilon_final. lia.
  - intros He Hf. eexists. split.
    + apply CalculateEpsilon_decaying. lia.
    + rewrite He, Hf. reflexivity.
Qed.

(** The scenario in binary64: with the doubles nearest to 0.1 and to 0.55,
    the schedule at iteration 500000 of 1000000 is the latter. *)
Example CalculateEpsilon_binary64_scenario :
  Binary64.CalculateEpsilon 1000000 0x1.999999999999ap-4%float 500000
    = 0x1.199999999999ap-1%float
  /\ Binary64.CalculateEpsilon 1000000 0x1.999999999999ap-4%float 1000000
    = 0x1.999999999999ap-4%float.
Proof. split; vm_compute; reflexivity. Qed.

Lemma CalculateEpsilon_schedule_witness :
  FLAGS_epsilon default_flags <= 1 /\
  (exists e, CalculateEpsilon default_flags 500000 = Some e /\ e == 55 # 100) /\
  CalculateEpsilon default_flags 1000000 = Some (1 # 10).
Proof.
  assert (H : FLAGS_epsilon default_flags <= 1) by (vm_compute; discriminate).
  split; [exact H|].
  destruct (CalculateEpsilon_schedule default_flags H) as (_ & _ & Hfin & _ & Hsc).
  split.
  - apply Hsc; reflexivity.
  - apply Hfin. vm_compute. discriminate.
Defined.

End Schedule.

(** ** Outcomes *)

Lemma bind_Done {A B} (m : Result A) (k : A -> Result B) (b : B) :
  m ≫= k = Done b -> exists a, m = Done a /\ k a = Done b.
Proof. destruct m as [a| |]; [|discriminate..]. intros H. now exists a. Qed.

Lemma check_Done (b : bool) (f : Failure) (u : unit) :
  check b f = Done u -> b = true.
Proof. destruct b; [reflexivity|discriminate]. Qed.

Lemma check_true (f : Failure) : check true f = Done tt.
Proof. reflexivity. Qed.

(** Splits a hypothesis [m ≫= k = Done b] into the run of [m], which gives
    [x], and the run of [k x]. *)
Tactic Notation "inv_bind" hyp(H) "as" simple_intropattern(x) ident(H1) :=
  let H2 := fresh in
  apply bind_Done in H; destruct H as (x & H1 & H2); rename H2 into H.

(** ** The steps of an episode *)

Section RunnerFacts.

Context {emulator : ALEInterface} {agent : DQNInterface}.
Variable flags : Flags.

Local Abbreviation W := (FLAGS_frames_per_timestep flags).
Local Abbreviation repetitions := (Z.to_nat (add32 (FLAGS_skip_frame flags) 1)).

(** What a completed iteration is made of. *)
Lemma LoopBody_Done epsilon update w l w' l' info :
  LoopBody flags epsilon update w l = Done (w', l', info) ->
  exists w1 l1 w2 fa a3,
    AdvanceStack flags update w l = Done (w1, l1) /\
    ChooseAction flags epsilon w1 l1 = (w2, fa, action info) /\
    RepeatAction repetitions (ale w2) (action info) 0%Q
      = (a3, immediate_score info) /\
    let rs := ShapeReward (immediate_score info) (lives a3) (remaining_lives l1) in
    reward info = rs.1 /\
    let wm := mkWorld a3 (dqn w2) (store w2) (trace w2) in
    let lm := mkLocals rs.2 (past_frames l1) (episode l1) (current_frame l1)
                (total_score l1 + immediate_score info)%Q fa (frame l1) in
    if update
    then RecordTransition flags wm lm (action info) (reward info) = Done (w', l')
    else (w', l') = (wm, lm).
Proof.
  unfold LoopBody. intros H.
  inv_bind H as [w1 l1] Hadv.
  destruct (ChooseAction flags epsilon w1 l1) as [[w2 fa] a] eqn:Hch.
  destruct (RepeatAction _ (ale w2) a 0%Q) as [a3 isc] eqn:Hrep.
  cbn [ale dqn store trace] in H.
  destruct (ShapeReward isc (lives a3) (remaining_lives l1)) as [rw rl] eqn:Hsh.
  inv_bind H as [] Hassert.
  inv_bind H as [w4 l4] Hrec. injection H as <- <- <-.
  exists w1, l1, w2, fa, a3. cbn [action immediate_score reward].
  rewrite Hsh. cbn [fst snd].
  repeat split; try assumption.
  destruct update; [exact Hrec|].
  injection Hrec as <- <-. reflexivity.
Qed.

(** *** The frame stack *)

Lemma pop_front_while_over_drop (n : Z) (q : list FrameDataSp) :
  pop_front_while_over n q
    = drop (length q - Z.to_nat (to_size_t n)) q.
Proof.
  assert (Hn : 0 <= to_size_t n).
  { unfold to_size_t. apply Z.mod_pos_bound. lia. }
  induction q as [|p q IH]; [reflexivity|].
  cbn [pop_front_while_over].
  destruct (Z.gtb_spec (Z.of_nat (length (p :: q))) (to_size_t n)) as [Hgt|Hle].
  - rewrite IH. cbn [length] in *.
    replace (S (length q) - Z.to_nat (to_size_t n))%nat
      with (S (length q - Z.to_nat (to_size_t n)))%nat by lia.
    reflexivity.
  - cbn [length] in *.
    replace (S (length q) - Z.to_nat (to_size_t n))%nat with 0%nat by lia.
    reflexivity.
Qed.

Lemma pop_front_while_over_length (n : Z) (q : list FrameDataSp) :
  Z.of_nat (length (pop_front_while_over n q)) <= to_size_t n.
Proof.
  assert (Hn : 0 <= to_size_t n).
  { unfold to_size_t. apply Z.mod_pos_bound. lia. }
  rewrite pop_front_while_over_drop, length_drop. lia.
Qed.

Lemma AdvanceStack_Done update w l w1 l1 :
  AdvanceStack flags update w l = Done (w1, l1) ->
  let s := if update then (w, current_frame l) else ObserveFrame flags w in
  w1 = s.1 /\
  l1 = mkLocals (remaining_lives l)
         (pop_front_while_over W (past_frames l ++ [s.2]))
         (episode l) s.2 (total_score l) (first_action l) (frame l).
Proof.
  unfold AdvanceStack. intros H.
  destruct (if update then (w, current_frame l) else ObserveFrame flags w)
    as [w0 cf].
  inv_bind H as [] Hcheck. injection H as <- <-. split; reflexivity.
Qed.

(** The [CHECK_LE] of line 111 never fails. *)
Lemma AdvanceStack_total update w l :
  exists w1 l1, AdvanceStack flags update w l = Done (w1, l1).
Proof.
  unfold AdvanceStack.
  destruct (if update then (w, current_frame l) else ObserveFrame flags w)
    as [w0 cf].
  pose proof (pop_front_while_over_length W (past_frames l ++ [cf])) as Hlen.
  apply Z.leb_le in Hlen. rewrite Hlen. cbn. eauto.
Qed.

(** *** The shaped reward *)

Lemma Qdiv_abs (x : Q) : ~ (x == 0)%Q -> (x / Qabs x == Qsign x)%Q.
Proof.
  destruct x as [[|p|p] d]; intros Hx.
  - exfalso. apply Hx. reflexivity.
  - unfold Qsign, Qabs, Qdiv, Qmult, Qinv, Qeq. cbn [Qnum Qden].
    change (Z.abs (Z.pos p)) with (Z.pos p). change (Z.sgn (Z.pos p)) with 1%Z.
    cbn [Qnum Qden inject_Z]. rewrite Pos2Z.inj_mul. ring.
  - unfold Qsign, Qabs, Qdiv, Qmult, Qinv, Qeq. cbn [Qnum Qden].
    change (Z.abs (Z.neg p)) with (Z.pos p). change (Z.sgn (Z.neg p)) with (-1)%Z.
    cbn [Qnum Qden inject_Z]. rewrite Pos2Z.inj_mul, <- (Pos2Z.opp_pos p). ring.
Qed.
Lemma Qsign_zero (x : Q) : (x == 0)%Q -> (Qsign x == 0)%Q.
Proof.
  destruct x as [[|p|p] d]; unfold Qsign, Qeq; cbn [Qnum Qden]; intros Hx;
    [reflexivity|lia|lia].
Qed.
Lemma Qsign_cases (x : Q) : (Qsign x == -1 \/ Qsign x == 0 \/ Qsign x == 1)%Q.
Proof.
  destruct x as [[|p|p] d]; unfold Qsign; cbn [Qnum];
    [right; left|right; right|left]; reflexivity.
Qed.

Lemma ShapeReward_spec (isc : Q) (lv rl : Z) :
  let rs := ShapeReward isc lv rl in
  (rs.1 == -1 \/ rs.1 == 0 \/ rs.1 == 1)%Q /\
  (lv < rl -> rs.1 = (-1)%Q /\ rs.2 = lv) /\
  (rl <= lv -> (rs.1 == Qsign isc)%Q /\ rs.2 = rl).
Proof.
  unfold ShapeReward.
  assert (Hsign : ((if Qeq_bool isc 0 then 0 else isc / Qabs isc) == Qsign isc)%Q).
  { destruct (Qeq_bool isc 0) eqn:E.
    - apply Qeq_bool_iff in E. symmetry. apply Qsign_zero, E.
    - apply Qdiv_abs. intros Hz. apply Qeq_bool_iff in Hz. congruence. }
  destruct (Z.ltb_spec lv rl) as [Hlt|Hge]; cbn [fst snd].
  - split; [left; reflexivity|]. split; [auto|lia].
  - split; [|split; [lia|auto]].
    rewrite Hsign. apply Qsign_cases.
Qed.

(** *** Recording a transition *)

Lemma LearningUpdate_Done w fr w' :
  LearningUpdate flags w fr = Done w' ->
  w' = (if (memory_size (dqn w) >? FLAGS_memory_threshold flags)
           && (Z.rem fr (FLAGS_update_frequency flags) =? 0)
        then mkWorld (ale w) (UpdateRandom (dqn w) (store w)) (store w)
               (EvUpdateRandom :: trace w)
        else w).
Proof.
  unfold LearningUpdate. intros Hrun.
  destruct (memory_size (dqn w) >? FLAGS_memory_threshold flags); cbn [andb].
  - inv_bind Hrun as [] Hcheck.
    destruct (Z.rem fr (FLAGS_update_frequency flags) =? 0);
      injection Hrun as <-; reflexivity.
  - injection Hrun as <-. reflexivity.
Qed.

Lemma RecordTransition_Done w l a r w' l' :
  RecordTransition flags w l a r = Done (w', l') ->
  let next_frame := length (store w) in
  LearningUpdate flags
    (mkWorld (ale w) (dqn w) (store_after_lookahead flags w l) (trace w)) (frame l)
    = Done w' /\
  l' = mkLocals (remaining_lives l) (past_frames l)
         (episode l ++
            [mkTransition (current_frame l) a r
               (if game_over (ale w) then None else Some next_frame)])
         next_frame (total_score l) (first_action l) (frame l).
Proof.
  unfold RecordTransition, store_after_lookahead, alloc. intros Hrun.
  inv_bind Hrun as w1 Hlearn. injection Hrun as <- <-.
  split; [exact Hlearn|].
  destruct (game_over (ale w)); reflexivity.
Qed.

Lemma LearningUpdate_ale w fr w' :
  LearningUpdate flags w fr = Done w' -> ale w' = ale w /\ store w' = store w.
Proof.
  intros Hrun. apply LearningUpdate_Done in Hrun. subst w'.
  destruct (_ && _); split; reflexivity.
Qed.


Lemma ChooseAction_ale epsilon w l w2 fa a :
  ChooseAction flags epsilon w l = (w2, fa, a) ->
  ale w2 = ale w /\ store w2 = store w.
Proof.
  unfold ChooseAction.
  destruct (_ =? _).
  - destruct (SelectAction _ _ _ _ _) as [d a']. intros [= <- _ _]. now split.
  - intros [= <- _ _]. now split.
Qed.

Lemma ObserveFrame_ale w : ale (ObserveFrame flags w).1 = ale w.
Proof. reflexivity. Qed.

(** The emulator after an iteration is the one the repeated action leaves. *)
Lemma LoopBody_ale epsilon update w l w' l' info :
  LoopBody flags epsilon update w l = Done (w', l', info) ->
  RepeatAction repetitions (ale w) (action info) 0%Q
    = (ale w', immediate_score info).
Proof.
  intros Hrun. apply LoopBody_Done in Hrun.
  destruct Hrun as (w1 & l1 & w2 & fa & a3 & Hadv & Hch & Hrep & _ & Hrec).
  apply AdvanceStack_Done in Hadv as [-> _].
  apply ChooseAction_ale in Hch as [Hale _]. rewrite Hale in Hrep.
  assert (Hale1 : ale (if update then (w, current_frame l)
                       else ObserveFrame flags w).1 = ale w)
    by (destruct update; reflexivity).
  rewrite Hale1 in Hrep.
  destruct update.
  - apply RecordTransition_Done in Hrec as [Hlearn _].
    apply LearningUpdate_ale in Hlearn as [-> _]. exact Hrep.
  - injection Hrec as -> _. exact Hrep.
Qed.

(** The transition that an iteration records in update mode. *)
Lemma LoopBody_episode epsilon w l w' l' info :
  LoopBody flags epsilon true w l = Done (w', l', info) ->
  episode l' = episode l ++
    [mkTransition (current_frame l) (action info) (reward info)
       (if game_over (ale w') then None else Some (length (store w)))] /\
  current_frame l' = length (store w).
Proof.
  intros Hrun. apply LoopBody_Done in Hrun.
  destruct Hrun as (w1 & l1 & w2 & fa & a3 & Hadv & Hch & Hrep & _ & Hrec).
  apply AdvanceStack_Done in Hadv as [-> ->].
  apply ChooseAction_ale in Hch as [_ Hst].
  apply RecordTransition_Done in Hrec as [Hlearn ->].
  apply LearningUpdate_ale in Hlearn as [-> _].
  cbn [ale store episode current_frame fst snd] in *. rewrite Hst.
  split; reflexivity.
Qed.

Lemma LoopBody_episode_off epsilon w l w' l' info :
  LoopBody flags epsilon false w l = Done (w', l', info) ->
  episode l' = episode l.
Proof.
  intros Hrun. apply LoopBody_Done in Hrun.
  destruct Hrun as (w1 & l1 & w2 & fa & a3 & Hadv & Hch & Hrep & _ & Hrec).
  apply AdvanceStack_Done in Hadv as [-> ->].
  injection Hrec as -> ->. reflexivity.
Qed.


(** *** The window of frames *)

Lemma ObserveFrame_store w :
  length (store (ObserveFrame flags w).1) = S (length (store w)) /\
  (ObserveFrame flags w).2 = length (store w).
Proof.
  unfold ObserveFrame, alloc. cbn [fst snd].
  destruct (FLAGS_obscure_size flags >? 0); cbn [store fst snd];
    rewrite ?length_alter, length_app; cbn [length]; split; lia.
Qed.

Lemma store_after_lookahead_length w l :
  length (store_after_lookahead flags w l) = S (length (store w)).
Proof.
  unfold store_after_lookahead.
  destruct (FLAGS_obscure_size flags >? 0);
    rewrite ?length_alter, length_app; cbn [length]; lia.
Qed.

Lemma AdvanceStack_stack update w l w1 l1 :
  AdvanceStack flags update w l = Done (w1, l1) ->
  current_frame l1 = next_pushed update w l /\
  past_frames l1
    = pop_front_while_over W (past_frames l ++ [next_pushed update w l]) /\
  length (store w1) = (length (store w) + (if update then 0 else 1))%nat.
Proof.
  intros Hadv. apply AdvanceStack_Done in Hadv as [-> ->].
  destruct update; cbn [fst snd current_frame past_frames next_pushed].
  - repeat split. lia.
  - destruct (ObserveFrame_store w) as [Hlen ->]. repeat split. lia.
Qed.

Lemma LoopBody_stack epsilon update w l w' l' info :
  LoopBody flags epsilon update w l = Done (w', l', info) ->
  (update = true -> S (current_frame l) = length (store w)) ->
  past_frames l'
    = pop_front_while_over W (past_frames l ++ [next_pushed update w l]) /\
  length (store w') = S (length (store w)) /\
  next_pushed update w' l' = S (next_pushed update w l) /\
  (update = true -> S (current_frame l') = length (store w')).
Proof.
  intros Hrun Hcur. apply LoopBody_Done in Hrun.
  destruct Hrun as (w1 & l1 & w2 & fa & a3 & Hadv & Hch & Hrep & _ & Hrec).
  apply AdvanceStack_stack in Hadv as (Hcf & Hpf & Hlen).
  apply ChooseAction_ale in Hch as [_ Hst].
  destruct update.
  - specialize (Hcur eq_refl).
    apply RecordTransition_Done in Hrec as [Hlearn ->].
    apply LearningUpdate_ale in Hlearn as [_ ->].
    cbn [store past_frames current_frame next_pushed] in *.
    rewrite store_after_lookahead_length. cbn [store].
    rewrite Hst, Hlen. split_and!; [exact Hpf|lia|lia|lia].
  - injection Hrec as -> ->.
    cbn [store past_frames current_frame next_pushed] in *.
    rewrite Hst, Hlen. split_and!; [exact Hpf|lia|lia|discriminate].
Qed.

(** The stack after a push on a stack that holds the latest frames. *)
Lemma push_on_window (n : Z) (k c : nat) :
  let Wn := Z.to_nat (to_size_t n) in
  (k <= c)%nat ->
  pop_front_while_over n (seq (c - k `min` Wn) (k `min` Wn) ++ [c])
    = seq (S c - S k `min` Wn) (S k `min` Wn).
Proof.
  intros Wn Hk. rewrite pop_front_while_over_drop. fold Wn.
  replace [c] with (seq (c - k `min` Wn + k `min` Wn) 1)
    by (cbn; f_equal; lia).
  rewrite <- seq_app, length_seq, drop_seq. f_equal; lia.
Qed.

Lemma reaches_stack epsilon update w1 l1 k w l :
  let Wn := Z.to_nat (to_size_t W) in
  LoopReaches flags epsilon update w1 l1 k w l ->
  past_frames l1 = [] ->
  (update = true -> S (current_frame l1) = length (store w1)) ->
  length (store w) = (length (store w1) + k)%nat /\
  (update = true -> S (current_frame l) = length (store w)) /\
  next_pushed update w l = (next_pushed update w1 l1 + k)%nat /\
  past_frames l
    = seq (next_pushed update w l - k `min` Wn) (k `min` Wn).
Proof.
  intros Wn Hreach Hempty Hcur1.
  induction Hreach as [|k w l w' l' info Hreach IH Hover Hbody].
  - rewrite Hempty. split_and!; [lia|exact Hcur1|lia|reflexivity].
  - destruct IH as (Hlen & Hcur & Hnext & Hpf).
    apply LoopBody_stack in Hbody as (Hpf' & Hlen' & Hnext' & Hcur'); [|exact Hcur].
    assert (Hnp : forall x, next_pushed update w' (next_iteration x)
                            = next_pushed update w' x)
      by (intros x; destruct update; reflexivity).
    rewrite Hnp. cbn [next_iteration past_frames current_frame].
    split_and!; [lia|exact Hcur'|lia|].
    rewrite Hpf', Hpf, Hnext'. apply push_on_window. lia.
Qed.

Lemma EnterLoop_state w0 :
  past_frames (EnterLoop flags w0).2 = [] /\
  current_frame (EnterLoop flags w0).2 = length (store w0) /\
  length (store (EnterLoop flags w0).1) = S (length (store w0)) /\
  ale (EnterLoop flags w0).1 = ale w0 /\
  episode (EnterLoop flags w0).2 = [].
Proof.
  unfold EnterLoop.
  pose proof (ObserveFrame_store w0) as [Hlen Hp].
  pose proof (ObserveFrame_ale w0) as Hale.
  destruct (ObserveFrame flags w0) as [w1 cf]. cbn [fst snd] in *.
  unfold InitialLocals. cbn [past_frames current_frame episode]. auto.
Qed.

(** C9.  Frames are named in the order in which they are made.  Take the
    loop of an episode after [k] iterations have completed, and let the next
    iteration push its frame and cut the stack (lines 88-111), which is the
    stack that action selection sees.  For a window [W] that is not
    negative: the stack has at most [W] frames; it is the old stack with the
    new frame at the back, less the frames at its front that exceed the
    window; and from the [W]-th iteration on it is made of the [W] frames
    made last, oldest first. *)
Theorem frame_stack_window epsilon update w0 k w l ws ls :
  0 <= W <= INT_MAX ->
  LoopReaches flags epsilon update
    (EnterLoop flags w0).1 (EnterLoop flags w0).2 k w l ->
  AdvanceStack flags update w l = Done (ws, ls) ->
  let q := past_frames l ++ [current_frame ls] in
  Z.of_nat (length (past_frames ls)) <= W /\
  past_frames ls = drop (length q - Z.to_nat W) q /\
  length (store ws)
    = (length (store w0) + S k + (if update then 0 else 1))%nat /\
  (W <= Z.of_nat (S k) ->
   past_frames ls = seq (length (store ws) - Z.to_nat W) (Z.to_nat W)).
Proof.
  intros HW Hreach Hadv q.
  assert (HWn : to_size_t W = W).
  { apply to_size_t_nonneg. unfold INT_MAX in HW. lia. }
  destruct (EnterLoop_state w0) as (Hempty & Hcur & Hlen0 & _).
  apply reaches_stack in Hreach as (Hlen & _ & Hnext & Hpf);
    [|exact Hempty|intros _; lia].
  apply AdvanceStack_stack in Hadv as (Hcf & Hpf' & Hlen').
  rewrite HWn in Hpf.
  split_and!.
  - rewrite Hpf'. rewrite <- HWn at 2. apply pop_front_while_over_length.
  - subst q. rewrite Hpf', Hcf, pop_front_while_over_drop, HWn. reflexivity.
  - rewrite Hlen', Hlen, Hlen0. destruct update; lia.
  - intros Hk. rewrite Hpf', Hpf.
    assert (Hnp : S (next_pushed update w l) = length (store ws)).
    { rewrite Hlen', Hnext. destruct update; cbn [next_pushed]; lia. }
    pose proof (push_on_window W k (next_pushed update w l)) as Hpush.
    cbv zeta in Hpush. rewrite HWn in Hpush.
    etrans; [apply Hpush; lia|]. rewrite Hnp. f_equal; lia.
Qed.

(** *** The learning update *)

Lemma LearningUpdate_divides w fr w' :
  LearningUpdate flags w fr = Done w' ->
  memory_size (dqn w) > FLAGS_memory_threshold flags ->
  (Z.rem fr (FLAGS_update_frequency flags) =? 0) = true
  <-> (FLAGS_update_frequency flags | fr).
Proof.
  unfold LearningUpdate. intros Hrun Hmem.
  destruct (Z.gtb_spec (memory_size (dqn w)) (FLAGS_memory_threshold flags));
    [|lia].
  inv_bind Hrun as [] Hcheck.
  apply check_Done, negb_true_iff, Z.eqb_neq in Hcheck.
  rewrite Z.eqb_eq. apply Z.rem_divide, Hcheck.
Qed.

Lemma reaches_frame epsilon update w0 k w l :
  LoopReaches flags epsilon update
    (EnterLoop flags w0).1 (EnterLoop flags w0).2 k w l ->
  Z.of_nat k <= INT_MAX ->
  frame l = Z.of_nat k.
Proof.
  intros Hreach. induction Hreach as [|k w l w' l' info Hreach IH Hover Hbody];
    intros Hk.
  - unfold EnterLoop. destruct (ObserveFrame flags w0). reflexivity.
  - assert (Hfr : frame l' = frame l).
    { apply LoopBody_Done in Hbody.
      destruct Hbody as (w1 & l1 & w2 & fa & a3 & Hadv & _ & _ & _ & Hrec).
      apply AdvanceStack_Done in Hadv as [-> ->].
      destruct update.
      - apply RecordTransition_Done in Hrec as [_ ->]. reflexivity.
      - injection Hrec as _ ->. reflexivity. }
    cbn [next_iteration frame]. rewrite Hfr, IH by lia.
    unfold add32. rewrite wrap_in_range; [lia|].
    unfold in_range, INT_MIN, INT_MAX in *. lia.
Qed.

(** C8.  Take the iteration that follows [k] completed iterations of an
    episode ([k] within the range of the counter [frame]), and let
    [occupancy] be what [memory_size] returns once the action has been
    selected.  If the iteration completes, it calls [UpdateRandom] when the
    run is in update mode, [occupancy] is over the threshold and [k] is a
    multiple of the update frequency, and it does not call it otherwise;
    the only other call it makes to the agent is [SelectAction]. *)
Theorem LoopBody_learning_update epsilon update w0 k w l w' l' info :
  LoopReaches flags epsilon update
    (EnterLoop flags w0).1 (EnterLoop flags w0).2 k w l ->
  Z.of_nat k <= INT_MAX ->
  LoopBody flags epsilon update w l = Done (w', l', info) ->
  exists w1 l1,
    AdvanceStack flags update w l = Done (w1, l1) /\
    let wsel := (ChooseAction flags epsilon w1 l1).1.1 in
    let occupancy := memory_size (dqn wsel) in
    let due :=
      update = true /\ occupancy > FLAGS_memory_threshold flags /\
      (FLAGS_update_frequency flags | Z.of_nat k) in
    (due -> trace w' = EvUpdateRandom :: trace wsel /\
            dqn w' = UpdateRandom (dqn wsel) (store w')) /\
    (~ due -> trace w' = trace wsel /\ dqn w' = dqn wsel) /\
    (trace wsel = trace w1 \/
     exists input seen continuation chosen,
       trace wsel
         = EvSelectAction input seen epsilon continuation chosen :: trace w1) /\
    trace w1 = trace w.
Proof.
  intros Hreach Hk Hrun.
  apply reaches_frame in Hreach; [|exact Hk]. rewrite <- Hreach. clear Hreach Hk.
  apply LoopBody_Done in Hrun.
  destruct Hrun as (w1 & l1 & w2 & fa & a3 & Hadv & Hch & Hrep & _ & Hrec).
  exists w1, l1. split; [exact Hadv|]. rewrite Hch. cbn [fst].
  assert (Hsel : trace w2 = trace w1 \/
     exists input seen continuation chosen,
       trace w2 = EvSelectAction input seen epsilon continuation chosen :: trace w1).
  { unfold ChooseAction in Hch. destruct (_ =? _).
    - destruct (SelectAction _ _ _ _ _) as [d a']. injection Hch as <- _ _.
      right. eauto.
    - injection Hch as <- _ _. left. reflexivity. }
  assert (Htr : trace w1 = trace w).
  { apply AdvanceStack_Done in Hadv as [-> _]. destruct update; reflexivity. }
  assert (Hfr : frame l1 = frame l).
  { apply AdvanceStack_Done in Hadv as [_ ->]. reflexivity. }
  destruct update.
  - apply RecordTransition_Done in Hrec as [Hlearn _]. cbn [frame] in Hlearn.
    rewrite Hfr in Hlearn.
    pose proof (LearningUpdate_divides _ _ _ Hlearn) as Hdiv.
    pose proof (LearningUpdate_Done _ _ _ Hlearn) as Hw'.
    cbn [dqn ale store trace] in Hdiv, Hw'.
    destruct (Z.gtb_spec (memory_size (dqn w2)) (FLAGS_memory_threshold flags))
      as [Hgt|Hle]; cbn [andb] in Hw'.
    + specialize (Hdiv ltac:(lia)).
      destruct (Z.rem (frame l) (FLAGS_update_frequency flags) =? 0) eqn:Hrem;
        subst w'; cbn [trace dqn store].
      * split_and!; [auto|intros Hn; exfalso; apply Hn|exact Hsel|exact Htr].
        split_and!; [reflexivity|lia|apply Hdiv; reflexivity].
      * split_and!; [|auto|exact Hsel|exact Htr].
        intros (_ & _ & Hd). apply Hdiv in Hd. discriminate.
    + subst w'. split_and!; [|auto|exact Hsel|exact Htr].
      intros (_ & Hgt & _). lia.
  - injection Hrec as -> _. cbn [trace dqn].
    split_and!; [|auto|exact Hsel|exact Htr].
    intros (Hup & _). discriminate.
Qed.

(** *** The frame captured after acting *)

(** In update mode the frame that an iteration captures after acting is in
    the store as [PreprocessScreen] made it: [ObscureScreen] is called on
    [current_frame], which is another frame. *)
Lemma LoopBody_next_frame_raw epsilon w l w' l' info :
  LoopBody flags epsilon true w l = Done (w', l', info) ->
  (current_frame l < length (store w))%nat ->
  store w' !! current_frame l' = Some (PreprocessScreen (getScreen (ale w'))).
Proof.
  intros Hrun Hcur.
  pose proof (LoopBody_episode _ _ _ _ _ _ Hrun) as [_ ->].
  apply LoopBody_Done in Hrun.
  destruct Hrun as (w1 & l1 & w2 & fa & a3 & Hadv & Hch & Hrep & _ & Hrec).
  apply AdvanceStack_Done in Hadv as [-> ->].
  apply ChooseAction_ale in Hch as [_ Hst].
  apply RecordTransition_Done in Hrec as [Hlearn _].
  apply LearningUpdate_ale in Hlearn as [-> ->].
  cbn [ale store fst snd current_frame] in *.
  unfold store_after_lookahead. cbn [ale store current_frame]. rewrite Hst.
  destruct (FLAGS_obscure_size flags >? 0).
  - rewrite list_lookup_alter_ne by lia.
    rewrite lookup_app_r by lia. now rewrite Nat.sub_diag.
  - rewrite lookup_app_r by lia. now rewrite Nat.sub_diag.
Qed.

(** *** The loop *)

Lemma PlayLoop_reaches fuel epsilon update w l w' l' :
  PlayLoop flags fuel epsilon update w l = Done (w', l') ->
  exists k, LoopReaches flags epsilon update w l k w' l' /\
            game_over (ale w') = true.
Proof.
  enough (Hgen : forall w0 l0 k0,
            LoopReaches flags epsilon update w0 l0 k0 w l ->
            PlayLoop flags fuel epsilon update w l = Done (w', l') ->
            exists k, LoopReaches flags epsilon update w0 l0 k w' l' /\
                      game_over (ale w') = true).
  { intros Hrun. eapply Hgen; [constructor|exact Hrun]. }
  revert w l. induction fuel as [|fuel IH]; intros w l w0 l0 k0 Hreach Hrun;
    cbn [PlayLoop] in Hrun; destruct (game_over (ale w)) eqn:Hover.
  - injection Hrun as <- <-. eauto.
  - discriminate.
  - injection Hrun as <- <-. eauto.
  - inv_bind Hrun as [[w1 l1] info] Hbody.
    eapply IH; [|exact Hrun].
    econstructor; eassumption.
Qed.

(** In update mode every iteration adds one transition, whose next frame is
    absent exactly when the game is over after it. *)
Lemma reaches_episode epsilon w0 l0 k w l :
  LoopReaches flags epsilon true w0 l0 k w l ->
  open_episode (episode l0) ->
  (k = 0%nat /\ w = w0 /\ l = l0) \/
  (exists init t, episode l = init ++ [t] /\ open_episode init /\
                  (t_next t = None <-> game_over (ale w) = true)).
Proof.
  intros Hreach Hopen. induction Hreach as [|k w l w' l' info Hreach IH Hover Hbody].
  - left. auto.
  - right.
    assert (Hl : open_episode (episode l)).
    { destruct IH as [(_ & _ & ->)|(init & t & -> & Hinit & Ht)]; [exact Hopen|].
      apply Forall_app. split; [exact Hinit|].
      apply Forall_singleton. destruct (t_next t); [eauto|].
      destruct Ht as [Ht _]. rewrite Ht in Hover by reflexivity. discriminate. }
    apply LoopBody_episode in Hbody as [Hep _].
    eexists _, _. cbn [next_iteration episode]. split; [exact Hep|].
    split; [exact Hl|]. cbn [t_next].
    destruct (game_over (ale w')); split; congruence.
Qed.

Lemma PlayOneEpisode_Done fuel w epsilon update w' score :
  PlayOneEpisode flags fuel w epsilon update = Done (w', score) ->
  game_over (ale w) = false /\
  exists w2 l2,
    PlayLoop flags fuel epsilon update (ObserveFrame flags w).1
      (InitialLocals (ObserveFrame flags w).1 (ObserveFrame flags w).2)
      = Done (w2, l2) /\
    score = total_score l2 /\
    w' = mkWorld (reset_game (ale w2))
           (if update then RememberEpisode (dqn w2) (episode l2) else dqn w2)
           (store w2)
           (EvResetGame ::
              (if update then [EvRememberEpisode (episode l2)] else [])
              ++ trace w2).
Proof.
  unfold PlayOneEpisode. intros Hrun.
  inv_bind Hrun as [] Hcheck. apply check_Done, negb_true_iff in Hcheck.
  split; [exact Hcheck|].
  destruct (ObserveFrame flags w) as [w1 cf].
  inv_bind Hrun as [w2 l2] Hloop. injection Hrun as <- <-.
  exists w2, l2. split; [exact Hloop|]. split; [reflexivity|].
  destruct update; reflexivity.
Qed.

(** The iterations of a completed episode are those of [LoopReaches]. *)
Lemma PlayOneEpisode_reaches fuel w epsilon update w' score :
  PlayOneEpisode flags fuel w epsilon update = Done (w', score) ->
  exists k w2 l2,
    LoopReaches flags epsilon update
      (EnterLoop flags w).1 (EnterLoop flags w).2 k w2 l2 /\
    game_over (ale w2) = true /\ score = total_score l2.
Proof.
  intros Hrun. apply PlayOneEpisode_Done in Hrun as (_ & w2 & l2 & Hloop & Hs & _).
  apply PlayLoop_reaches in Hloop as (k & Hreach & Hover).
  exists k, w2, l2. unfold EnterLoop.
  destruct (ObserveFrame flags w) as [w1 cf]. auto.
Qed.

(** C3.  An episode that [PlayOneEpisode] completes in update mode is handed
    to the agent with at least one transition, and the transitions whose
    next frame is absent are exactly the last one.  (The run completes only
    when the game is not over at the start: otherwise the [CHECK] of line 76
    aborts it.) *)
Theorem PlayOneEpisode_terminal_transition fuel w epsilon w' score :
  PlayOneEpisode flags fuel w epsilon true = Done (w', score) ->
  exists e tr,
    trace w' = EvResetGame :: EvRememberEpisode e :: tr /\
    e <> [] /\
    forall i t, e !! i = Some t -> (t_next t = None <-> S i = length e).
Proof.
  intros Hrun. apply PlayOneEpisode_Done in Hrun as (Hstart & w2 & l2 & Hloop & _ & ->).
  apply PlayLoop_reaches in Hloop as (k & Hreach & Hover).
  apply reaches_episode in Hreach; [|constructor].
  destruct Hreach as [(_ & -> & _)|(init & t & He & Hinit & Ht)].
  { rewrite ObserveFrame_ale in Hover. congruence. }
  exists (episode l2), (trace w2). split; [reflexivity|].
  rewrite He. split; [destruct init; discriminate|].
  intros i x Hx. rewrite length_app. cbn [length].
  apply lookup_app_Some in Hx as [Hx|[Hlen Hx]].
  - pose proof (lookup_lt_Some _ _ _ Hx) as Hlt.
    eapply Forall_lookup_1 in Hinit; [|exact Hx].
    destruct Hinit as [p Hp]. rewrite Hp. split; [discriminate|lia].
  - apply list_lookup_singleton_Some in Hx as [Hi <-].
    split; [lia|]. intros _. apply Ht, Hover.
Qed.

(** *** The events of an episode *)




End RunnerFacts.

(** ** Termination

    The loop of [PlayOneEpisode] ends when the emulator says so.  With an
    emulator that brings every game to its end ([clock] bounds the acts that
    are left), a repeat count of at least one and, in update mode, an update
    frequency that is not zero, an episode started on a game that is not
    over runs to its end: no [CHECK] or [assert] fails, and [clock] is fuel
    enough. *)

Section Termination.

Context {emulator : ALEInterface} {agent : DQNInterface}.
Variable flags : Flags.
Variable clock : ALE -> nat.
Hypothesis clock_act :
  forall a x, game_over a = false -> (clock (act a x).1 < clock a)%nat.
Hypothesis skip_frame_range : 0 <= FLAGS_skip_frame flags < INT_MAX.

Lemma RepeatAction_clock_le n a x sc :
  (clock (RepeatAction n a x sc).1 <= clock a)%nat.
Proof.
  revert a sc. induction n as [|n IH]; intros a sc; cbn [RepeatAction fst];
    [lia|].
  destruct (game_over a) eqn:Hover; [cbn [fst]; lia|].
  pose proof (clock_act a x Hover) as Hlt.
  destruct (act a x) as [a' r]. cbn [fst] in Hlt.
  specialize (IH a' (sc + inject_Z r)%Q). lia.
Qed.

Lemma RepeatAction_clock_lt n a x sc :
  game_over a = false ->
  (clock (RepeatAction (S n) a x sc).1 < clock a)%nat.
Proof.
  intros Hover. cbn [RepeatAction]. rewrite Hover.
  pose proof (clock_act a x Hover) as Hlt.
  destruct (act a x) as [a' r]. cbn [fst] in Hlt.
  pose proof (RepeatAction_clock_le n a' x (sc + inject_Z r)%Q). lia.
Qed.

Lemma repetitions_pos :
  exists n, Z.to_nat (add32 (FLAGS_skip_frame flags) 1) = S n.
Proof.
  unfold add32. rewrite wrap_in_range.
  - exists (Z.to_nat (FLAGS_skip_frame flags)). lia.
  - unfold in_range, INT_MIN, INT_MAX in *. lia.
Qed.

(** The [assert] of line 132 never fails. *)
Lemma ShapeReward_assert isc lv rl :
  let r := (ShapeReward isc lv rl).1 in
  Qle_bool r 1 && Qle_bool (-1) r = true.
Proof.
  intros r. destruct (ShapeReward_spec isc lv rl) as (Hcases & _).
  fold r in Hcases. apply andb_true_iff. rewrite !Qle_bool_iff.
  destruct Hcases as [Hr|[Hr|Hr]]; rewrite Hr; split; discriminate.
Qed.

Lemma LoopBody_total epsilon update w l :
  game_over (ale w) = false ->
  (update = true -> FLAGS_update_frequency flags <> 0) ->
  exists w' l' info,
    LoopBody flags epsilon update w l = Done (w', l', info) /\
    (clock (ale w') < clock (ale w))%nat.
Proof.
  intros Hover Hfreq. unfold LoopBody.
  destruct (AdvanceStack_total flags update w l) as (w1 & l1 & Hadv).
  rewrite Hadv. cbn [mbind Result_bind].
  assert (Hale1 : ale w1 = ale w).
  { apply AdvanceStack_Done in Hadv as [-> _]. destruct update; reflexivity. }
  destruct (ChooseAction flags epsilon w1 l1) as [[w2 fa] a] eqn:Hch.
  apply ChooseAction_ale in Hch as [Hale2 _].
  destruct repetitions_pos as [n ->].
  pose proof (RepeatAction_clock_lt n (ale w2) a 0%Q) as Hlt.
  rewrite Hale2, Hale1 in Hlt. specialize (Hlt Hover).
  rewrite Hale2, Hale1.
  destruct (RepeatAction (S n) (ale w) a 0%Q) as [a3 isc]. cbn [fst] in Hlt.
  cbn [ale].
  pose proof (ShapeReward_assert isc (lives a3) (remaining_lives l1)) as Hassert.
  destruct (ShapeReward isc (lives a3) (remaining_lives l1)) as [rw rl].
  cbn [fst] in Hassert. rewrite Hassert. cbn [check mbind Result_bind].
  destruct update.
  - unfold RecordTransition, alloc, LearningUpdate. cbn [dqn ale store trace frame].
    destruct (memory_size (dqn w2) >? FLAGS_memory_threshold flags).
    + specialize (Hfreq eq_refl). apply Z.eqb_neq in Hfreq. rewrite Hfreq.
      cbn [negb check mbind Result_bind].
      destruct (Z.rem _ _ =? 0); cbn [mbind Result_bind mret Result_ret];
        eexists _, _, _; (split; [reflexivity|exact Hlt]).
    + cbn [mbind Result_bind mret Result_ret].
      eexists _, _, _. split; [reflexivity|exact Hlt].
  - cbn [mbind Result_bind mret Result_ret].
    eexists _, _, _. split; [reflexivity|exact Hlt].
Qed.

Lemma PlayLoop_total fuel epsilon update w l :
  (update = true -> FLAGS_update_frequency flags <> 0) ->
  (clock (ale w) <= fuel)%nat ->
  exists w' l', PlayLoop flags fuel epsilon update w l = Done (w', l').
Proof.
  intros Hfreq. revert w l.
  induction fuel as [|fuel IH]; intros w l Hclock; cbn [PlayLoop];
    destruct (game_over (ale w)) eqn:Hover; try (eexists _, _; reflexivity).
  - destruct (LoopBody_total epsilon update w l Hover Hfreq)
      as (w' & l' & info & _ & Hlt). lia.
  - destruct (LoopBody_total epsilon update w l Hover Hfreq)
      as (w' & l' & info & -> & Hlt).
    cbn [mbind Result_bind]. apply IH. lia.
Qed.

Theorem PlayOneEpisode_total fuel w epsilon update :
  game_over (ale w) = false ->
  (update = true -> FLAGS_update_frequency flags <> 0) ->
  (clock (ale w) <= fuel)%nat ->
  exists w' score, PlayOneEpisode flags fuel w epsilon update = Done (w', score).
Proof.
  intros Hover Hfreq Hclock. unfold PlayOneEpisode. rewrite Hover.
  cbn [negb check mbind Result_bind].
  pose proof (ObserveFrame_ale flags w) as Hale.
  destruct (ObserveFrame flags w) as [w1 cf]. cbn [fst] in Hale.
  destruct (PlayLoop_total fuel epsilon update w1 (InitialLocals w1 cf) Hfreq)
    as (w2 & l2 & ->); [rewrite Hale; exact Hclock|].
  cbn [mbind Result_bind mret Result_ret]. eauto.
Qed.

Theorem Evaluate_total (sqrt : Q -> Q) fuel w :
  game_over (ale w) = false ->
  (clock (ale w) <= fuel)%nat ->
  exists w' avg_score, Evaluate flags sqrt fuel w = Done (w', avg_score).
Proof.
  intros Hover Hclock. unfold Evaluate.
  destruct (PlayOneEpisode_total fuel w
              (Some (FLAGS_evaluate_with_epsilon flags)) false Hover
              ltac:(discriminate) Hclock) as (w1 & score & ->).
  cbn [mbind Result_bind mret Result_ret]. eauto.
Qed.

End Termination.

(** ** Evaluation *)

Section EvaluationFacts.

Context {emulator : ALEInterface} {agent : DQNInterface}.
Variable flags : Flags.
Variable sqrt : Q -> Q.

Lemma Evaluate_Done fuel w w' avg_score :
  Evaluate flags sqrt fuel w = Done (w', avg_score) ->
  exists w1 score,
    PlayOneEpisode flags fuel w (Some (FLAGS_evaluate_with_epsilon flags)) false
      = Done (w1, score) /\
    let avg := ((0 + score) / inject_Z 1)%Q in
    let sum := (0 + (score - avg) * (score - avg))%Q in
    avg_score = Some avg /\
    w' = mkWorld (ale w1) (dqn w1) (store w1)
           (EvLogEvaluation avg_score
              (dsqrt sqrt
                 (ddiv sum (inject_Z (sub32 (FLAGS_repeat_games flags) 1))))
            :: trace w1).
Proof.
  unfold Evaluate. intros Hrun.
  inv_bind Hrun as [w1 score] Hplay. injection Hrun as <- <-.
  exists w1, score. split; [exact Hplay|]. split; reflexivity.
Qed.


End EvaluationFacts.

(** ** The training loop *)

Section TrainingFacts.

Context {emulator : ALEInterface} {agent : DQNInterface}.
Variable flags : Flags.
Variable sqrt : Q -> Q.

Lemma dgt_spec (a : double) (b : Q) :
  dgt a b = true <-> exists x, a = Some x /\ (b < x)%Q.
Proof.
  unfold dgt. destruct a as [x|].
  - rewrite negb_true_iff, <- not_true_iff_false, Qle_bool_iff. split.
    + intros Hn. exists x. split; [reflexivity|]. apply Qnot_le_lt, Hn.
    + intros (y & [= <-] & Hlt). apply Qlt_not_le, Hlt.
  - split; [discriminate|]. intros (y & [=] & _).
Qed.

Lemma Qgt_bool_spec (x y : Q) : negb (Qle_bool x y) = true <-> (y < x)%Q.
Proof.
  rewrite negb_true_iff, <- not_true_iff_false, Qle_bool_iff. split.
  - apply Qnot_le_lt.
  - apply Qlt_not_le.
Qed.

(** C7.  One turn of the [while] of [main] that completes, with
    [last_eval_iter + FLAGS_evaluate_freq] in the range of [int].  After the
    episode and its log line, [Evaluate] is run when the score is over
    [best_score] and the iteration count has reached [FLAGS_explore], or the
    iteration count less [last_eval_iter] has reached
    [FLAGS_evaluate_freq]; otherwise nothing more is done.  When it is run
    and the average is over [best_score]: [best_score] becomes the average,
    and the agent is the one that [Evaluate] left, after [Snapshot] under
    the [HiScore] name of [int(avg_score)] without memory and solver, then
    [Snapshot] at the save path with both; the name carries the truncated
    average when that is in the range of [int].  When it is run and the
    average is not over [best_score]: [best_score] stays and the agent is
    the one that [Evaluate] left after the one [Snapshot] at the save path.
    In both cases the trace holds these calls and no other after the
    evaluation, the emulator and the frames are as [Evaluate] left them, and
    [last_eval_iter] becomes the iteration count.  The episode count goes up
    by one in every turn. *)
Theorem TrainingIteration_evaluation fuel st st' :
  TrainingIteration flags sqrt fuel st = Done st' ->
  in_range (last_eval_iter st + FLAGS_evaluate_freq flags) ->
  exists w1 score,
    let epsilon := CalculateEpsilon flags (current_iteration (dqn (world st))) in
    PlayOneEpisode flags fuel (world st) epsilon true = Done (w1, score) /\
    let iter := current_iteration (dqn w1) in
    let wlog := log w1 (EvLogEpisode (episode_count st) score epsilon iter
                          (memory_size (dqn w1))) in
    let trigger :=
      ((best_score st < score)%Q /\ FLAGS_explore flags <= iter) \/
      FLAGS_evaluate_freq flags <= iter - last_eval_iter st in
    (trigger ->
     exists w2 avg_score stddev,
       Evaluate flags sqrt fuel wlog = Done (w2, avg_score) /\
       (exists tr, trace w2 = EvLogEvaluation avg_score stddev :: tr) /\
       let improved := exists a, avg_score = Some a /\ (best_score st < a)%Q in
       (forall a, avg_score = Some a -> (best_score st < a)%Q ->
          let name := HiScore (int_of_double a) in
          best_score st' = a /\
          (in_range (Qtrunc a) -> name = HiScore (Qtrunc a)) /\
          dqn (world st')
            = Snapshot (Snapshot (dqn w2) name false false) SavePath true true /\
          trace (world st')
            = EvSnapshot SavePath true true
              :: EvSnapshot name false false
              :: EvLogHiScore (current_iteration (dqn w2)) a :: trace w2) /\
       (~ improved ->
          best_score st' = best_score st /\
          dqn (world st') = Snapshot (dqn w2) SavePath true true /\
          trace (world st') = EvSnapshot SavePath true true :: trace w2) /\
       ale (world st') = ale w2 /\
       store (world st') = store w2 /\
       last_eval_iter st' = current_iteration (dqn (world st'))) /\
    (~ trigger ->
     world st' = wlog /\ last_eval_iter st' = last_eval_iter st /\
     best_score st' = best_score st) /\
    episode_count st' = add32 (episode_count st) 1.
Proof.
  unfold TrainingIteration. intros Hrun Hrange.
  inv_bind Hrun as [w1 score] Hplay. exists w1, score. cbv zeta.
  split; [exact Hplay|].
  set (epsilon := CalculateEpsilon flags _) in *.
  set (wlog := log w1 _) in *.
  change (current_iteration (dqn wlog)) with (current_iteration (dqn w1)) in Hrun.
  replace (add32 (last_eval_iter st) (FLAGS_evaluate_freq flags))
    with (last_eval_iter st + FLAGS_evaluate_freq flags) in Hrun
    by (symmetry; apply wrap_in_range, Hrange).
  destruct (negb (Qle_bool score (best_score st))
            && (current_iteration (dqn w1) >=? FLAGS_explore flags)
            || (current_iteration (dqn w1)
                  >=? last_eval_iter st + FLAGS_evaluate_freq flags)) eqn:Htrig.
  - inv_bind Hrun as [w2 avg_score] Heval.
    pose proof (Evaluate_Done _ _ _ _ _ _ Heval) as (wp & sp & _ & _ & Hw2).
    split_and!.
    + intros _. exists w2, avg_score. eexists. split; [exact Heval|].
      split; [rewrite Hw2; cbn [trace]; eauto|].
      destruct (dgt avg_score (best_score st)) eqn:Hgt.
      * apply dgt_spec in Hgt as (a & -> & Hlt). injection Hrun as <-.
        cbn [best_score world last_eval_iter do_Snapshot log trace dqn ale
             store default].
        split_and!; [|intros Hn; exfalso; apply Hn; eauto|reflexivity..].
        intros a' [= <-] _.
        split_and!; [reflexivity| |reflexivity..].
        intros Hin. f_equal. apply int_of_double_in_range, Hin.
      * injection Hrun as <-.
        cbn [best_score world last_eval_iter do_Snapshot log trace dqn ale
             store].
        split_and!; [|intros _; split_and!; reflexivity|reflexivity..].
        intros a Ha Hlt. exfalso.
        assert (Hd : dgt avg_score (best_score st) = true)
          by (apply dgt_spec; eauto).
        congruence.
    + intros Hn. exfalso. apply Hn.
      apply orb_true_iff in Htrig as [Ha|Hb].
      * apply andb_true_iff in Ha as [Hs Hi].
        left. split; [apply Qgt_bool_spec, Hs|]. apply Z.geb_le, Hi.
      * right. apply Z.geb_le in Hb. lia.
    + destruct (dgt avg_score (best_score st)); injection Hrun as <-;
        reflexivity.
  - injection Hrun as <-. cbn [world last_eval_iter best_score episode_count].
    split_and!; [|auto|reflexivity].
    intros Htr. exfalso. apply orb_false_iff in Htrig as [Ha Hb].
    destruct Htr as [[Hs Hi]|Hf].
    + apply Qgt_bool_spec in Hs. apply Z.geb_le in Hi.
      rewrite Hs, Hi in Ha. discriminate.
    + assert (Hb' : (current_iteration (dqn w1)
                     >=? last_eval_iter st + FLAGS_evaluate_freq flags) = true)
        by (apply Z.geb_le; lia).
      congruence.
Qed.

(** After the loop, an evaluation and a snapshot follow whenever
    [last_eval_iter] is not over the iteration count, and so when it is
    equal to it. *)
Lemma main_train_after_loop steps fuel max_iter hi_score w st :
  TrainingLoop flags sqrt steps fuel max_iter
    (mkTrain w 0 0 (if FLAGS_resume flags then hi_score else lowest)) = Done st ->
  last_eval_iter st <= current_iteration (dqn (world st)) ->
  main_train flags sqrt steps fuel max_iter hi_score w
    = '(w', _) ← Evaluate flags sqrt fuel (world st);
      mret (do_Snapshot w' SavePath true true).
Proof.
  intros Hloop Hle. unfold main_train. rewrite Hloop. cbn [mbind Result_bind].
  apply Z.geb_le in Hle. rewrite Hle. reflexivity.
Qed.

End TrainingFacts.

(** ** The small emulator ends every game *)

Lemma toy_clock_act (a : Toy.Game) (x : nat) :
  game_over a = false ->
  (length (Toy.script (act a x).1) < length (Toy.script a))%nat.
Proof.
  destruct a as [[|[delta lv] rest] lv0 c]; cbn; [discriminate|lia].
Qed.

Lemma toy_episode_total fl (w : World) epsilon update :
  0 <= FLAGS_skip_frame fl < INT_MAX ->
  (update = true -> FLAGS_update_frequency fl <> 0) ->
  game_over (ale w) = false ->
  exists w' score,
    PlayOneEpisode fl (length (Toy.script (ale w))) w epsilon update
      = Done (w', score).
Proof.
  intros Hskip Hfreq Hover.
  apply (@PlayOneEpisode_total Toy.toy_ale Toy.toy_dqn fl
           (fun g : Toy.Game => length (Toy.script g)) toy_clock_act
           Hskip _ w epsilon update Hover Hfreq).
  reflexivity.
Qed.


(** The five-act game, played in update mode. *)
Lemma PlayOneEpisode_terminal_transition_witness :
  exists w' score e tr,
    PlayOneEpisode (Toy.flags 2 0) 10 (Toy.start Toy.game1 3 0 1)
      (Some (1 # 2)) true = Done (w', score) /\
    trace w' = EvResetGame :: EvRememberEpisode e :: tr /\
    length e = 5%nat /\
    forall i t, e !! i = Some t -> (t_next t = None <-> S i = length e).
Proof.
  destruct (PlayOneEpisode (Toy.flags 2 0) 10 (Toy.start Toy.game1 3 0 1)
              (Some (1 # 2)) true) as [[w' score]| |] eqn:Hrun;
    [|vm_compute in Hrun; discriminate..].
  destruct (PlayOneEpisode_terminal_transition _ _ _ _ _ _ Hrun)
    as (e & tr & Htr & _ & Hlast).
  exists w', score, e, tr. split; [reflexivity|]. split; [exact Htr|].
  split; [|exact Hlast].
  vm_compute in Hrun. injection Hrun as <- _.
  cbn [trace] in Htr. injection Htr as <- _. reflexivity.
Defined.

(** The third iteration of the five-act game with a window of two frames,
    in update mode: the stack holds the second and the third frame. *)
Lemma frame_stack_window_witness :
  exists w l ws ls,
    LoopReaches (Toy.flags 2 0) (Some (1 # 2)) true
      (EnterLoop (Toy.flags 2 0) (Toy.start Toy.game1 3 0 1)).1
      (EnterLoop (Toy.flags 2 0) (Toy.start Toy.game1 3 0 1)).2 2 w l /\
    AdvanceStack (Toy.flags 2 0) true w l = Done (ws, ls) /\
    past_frames ls = [1; 2]%nat /\
    past_frames ls = seq (length (store ws) - 2) 2.
Proof.
  set (fl := Toy.flags 2 0). set (s0 := EnterLoop fl (Toy.start Toy.game1 3 0 1)).
  destruct (LoopBody fl (Some (1 # 2)) true s0.1 s0.2)
    as [[[w1 l1] i1]| |] eqn:H1; [|vm_compute in H1; discriminate..].
  pose proof H1 as E1. vm_compute in E1. injection E1 as Ew1 El1 _.
  destruct (LoopBody fl (Some (1 # 2)) true w1 (next_iteration l1))
    as [[[w2 l2] i2]| |] eqn:H2;
    [|rewrite <- Ew1, <- El1 in H2; vm_compute in H2; discriminate..].
  pose proof H2 as E2. rewrite <- Ew1, <- El1 in E2.
  vm_compute in E2. injection E2 as Ew2 El2 _.
  destruct (AdvanceStack fl true w2 (next_iteration l2))
    as [[ws ls]| |] eqn:H3;
    [|rewrite <- Ew2, <- El2 in H3; vm_compute in H3; discriminate..].
  assert (Hreach : LoopReaches fl (Some (1 # 2)) true s0.1 s0.2 2
                     w2 (next_iteration l2)).
  { eapply reaches_step;
      [eapply reaches_step; [apply reaches_start|reflexivity|exact H1]
      |rewrite <- Ew1; reflexivity|exact H2]. }
  exists w2, (next_iteration l2), ws, ls.
  split; [exact Hreach|]. split; [exact H3|].
  assert (HW : 0 <= FLAGS_frames_per_timestep fl <= INT_MAX)
    by (vm_compute; split; discriminate).
  destruct (frame_stack_window fl _ _ _ _ _ _ _ _ HW Hreach H3)
    as (_ & _ & _ & Hwin).
  split; [|apply Hwin; vm_compute; discriminate].
  rewrite <- Ew2, <- El2 in H3. vm_compute in H3. injection H3 as _ <-.
  reflexivity.
Defined.

(** The first iteration of the five-act game in update mode, with one
    transition in the memory, a threshold of zero and an update every second
    step: the agent is updated. *)
Lemma LoopBody_learning_update_witness :
  exists w' l' info,
    LoopBody (Toy.flags 2 0) (Some (1 # 2)) true
      (EnterLoop (Toy.flags 2 0) (Toy.start Toy.game1 3 0 1)).1
      (EnterLoop (Toy.flags 2 0) (Toy.start Toy.game1 3 0 1)).2
      = Done (w', l', info) /\
    trace w' = [EvUpdateRandom] /\ dqn w' = (1, 1).
Proof.
  set (fl := Toy.flags 2 0). set (s0 := EnterLoop fl (Toy.start Toy.game1 3 0 1)).
  destruct (LoopBody fl (Some (1 # 2)) true s0.1 s0.2)
    as [[[w1 l1] i1]| |] eqn:H1; [|vm_compute in H1; discriminate..].
  exists w1, l1, i1. split; [reflexivity|].
  assert (Hk : Z.of_nat 0 <= INT_MAX) by (vm_compute; discriminate).
  destruct (LoopBody_learning_update fl _ _ _ 0 _ _ _ _ _
              (reaches_start fl _ _ s0.1 s0.2) Hk H1)
    as (ws & ls & Hadv & Hdue & _).
  vm_compute in Hadv. injection Hadv as <- <-.
  destruct Hdue as [-> ->].
  - split_and!; [reflexivity|vm_compute; reflexivity|exists 0; reflexivity].
  - vm_compute in H1. injection H1 as <- _ _. split; reflexivity.
Defined.

(** ** The frame captured after acting is not obscured *)

(** C4 fails on the code.  The five-act game in update mode with [FLAGS_obscure_size = 1] and a
    window of two frames.  The screen after the first iteration is 5 and an
    obscured frame is 0.  The first iteration stores frame 1 in its
    transition as the next frame and makes it the current frame while it
    still holds 5; the second iteration pushes it and selects its action on
    a stack whose newest frame holds 5. *)
Theorem next_frame_stored_before_obscured :
  let fl := Toy.flags 2 0 in
  let s0 := EnterLoop fl (Toy.start Toy.game1 3 0 1) in
  FLAGS_obscure_size fl = 1 /\
  exists w1 l1 i1 t w2 l2 i2 tr,
    LoopBody fl (Some (1 # 2)) true s0.1 s0.2 = Done (w1, l1, i1) /\
    episode l1 = [t] /\ t_next t = Some 1%nat /\ current_frame l1 = 1%nat /\
    store w1 !! 1%nat = Some 5 /\
    @ObscureScreen _ Toy.toy_dqn 5 (FLAGS_obscure_size fl) = 0 /\
    LoopBody fl (Some (1 # 2)) true w1 (next_iteration l1) = Done (w2, l2, i2) /\
    trace w2
      = EvSelectAction [0; 1]%nat [Some 0; Some 5] (Some (1 # 2)) false 1%nat :: tr.
Proof.
  intros fl s0. split; [reflexivity|].
  destruct (LoopBody fl (Some (1 # 2)) true s0.1 s0.2)
    as [[[w1 l1] i1]| |] eqn:H1; [|vm_compute in H1; discriminate..].
  pose proof H1 as E1. vm_compute in E1. injection E1 as Ew1 El1 _.
  destruct (LoopBody fl (Some (1 # 2)) true w1 (next_iteration l1))
    as [[[w2 l2] i2]| |] eqn:H2;
    [|rewrite <- Ew1, <- El1 in H2; vm_compute in H2; discriminate..].
  pose proof H2 as E2. rewrite <- Ew1, <- El1 in E2.
  vm_compute in E2. injection E2 as Ew2 _ _.
  subst w1 l1 w2. eexists _, _, _, _, _, _, _, _.
  split; [reflexivity|]. cbn [episode current_frame store trace].
  split_and!; [reflexivity..|exact H2|reflexivity].
Qed.


(** ** The statistics of an evaluation *)

(** C5 fails on the code.  An evaluation on the five-act game with [FLAGS_repeat_games = 3]: one
    episode is played and one score, 7, is collected, not three.  The
    standard deviation that is logged is the square root of zero over
    [FLAGS_repeat_games - 1 = 2]; over the number of scores less one, which
    is zero, the division would not give a number. *)
Theorem Evaluate_statistics_of_one_run (sqrt : Q -> Q) :
  let fl := Toy.flags 2 0 in
  FLAGS_repeat_games fl = 3 /\
  exists w' evs s,
    Evaluate fl sqrt 10 (Toy.start Toy.game1 3 0 1) = Done (w', Some 7%Q) /\
    trace w'
      = EvLogEvaluation (Some 7%Q) (Some (sqrt s)) :: EvResetGame :: evs /\
    Forall step_event evs /\
    (s == 0)%Q /\
    ddiv 0 (inject_Z (Z.of_nat (length [7%Q]) - 1)) = None.
Proof.
  intros fl. split; [reflexivity|].
  destruct (Evaluate fl sqrt 10 (Toy.start Toy.game1 3 0 1))
    as [[w' avg]| |] eqn:Hrun; [|vm_compute in Hrun; discriminate..].
  vm_compute in Hrun. injection Hrun as <- <-.
  eexists _, _, _. split; [reflexivity|]. split; [reflexivity|].
  split; [repeat constructor|]. split; reflexivity.
Qed.

(** The first turn of the training loop on the five-act game: three
    learning updates are made, which reaches [FLAGS_evaluate_freq = 3], and
    the average of the evaluation, 7, is the new best score. *)
Lemma TrainingIteration_evaluation_witness :
  exists st' tr,
    TrainingIteration (Toy.flags 2 0) (fun q => q) 10
      (Toy.fresh (Toy.start Toy.game1 3 0 1)) = Done st' /\
    last_eval_iter st' = current_iteration (dqn (world st')) /\
    last_eval_iter st' = 3 /\
    episode_count st' = 1 /\
    best_score st' = 7%Q /\
    trace (world st')
      = EvSnapshot SavePath true true
        :: EvSnapshot (HiScore 7) false false :: EvLogHiScore 3 7%Q :: tr.
Proof.
  set (fl := Toy.flags 2 0). set (st := Toy.fresh (Toy.start Toy.game1 3 0 1)).
  destruct (TrainingIteration fl (fun q => q) 10 st) as [st'| |] eqn:Hrun;
    [|vm_compute in Hrun; discriminate..].
  assert (Hrange : in_range (last_eval_iter st + FLAGS_evaluate_freq fl))
    by (vm_compute; split; discriminate).
  destruct (TrainingIteration_evaluation fl _ _ _ _ Hrun Hrange)
    as (w1 & score & Hplay & Htrig & _ & Hcount).
  vm_compute in Hplay. injection Hplay as <- <-.
  destruct Htrig as (w2 & avg & std & Heval & _ & Hup & _ & _ & _ & Hlast).
  { right. vm_compute. discriminate. }
  vm_compute in Heval. injection Heval as <- <-.
  assert (Hlt : (best_score st < 7)%Q) by (vm_compute; reflexivity).
  destruct (Hup 7%Q eq_refl Hlt) as (Hbest & _ & _ & Htrace).
  eexists st', _. split; [reflexivity|]. split; [exact Hlast|].
  split; [vm_compute in Hrun; injection Hrun as <-; reflexivity|].
  split; [exact Hcount|]. split; [exact Hbest|]. exact Htrace.
Defined.

(** ** The evaluation after the loop *)

(** C6 fails on the code.  Training on the five-act game with a budget of three iterations.  The
    first episode makes three learning updates, so the loop ends after it;
    the evaluation of that turn is made at iteration 3, the final one.
    After the loop, [main] evaluates and takes a snapshot once more. *)
Theorem final_evaluation_is_repeated (sqrt : Q -> Q) :
  let fl := Toy.flags 2 0 in
  let w0 := Toy.start Toy.game1 3 0 1 in
  exists st w evs,
    TrainingLoop fl sqrt 5 10 3 (Toy.fresh w0) = Done st /\
    current_iteration (dqn (world st)) = 3 /\
    last_eval_iter st = 3 /\
    (exists tr, trace (world st) = EvSnapshot SavePath true true :: tr) /\
    main_train fl sqrt 5 10 3 0 w0 = Done w /\
    trace w
      = EvSnapshot SavePath true true
        :: EvLogEvaluation (Some 7%Q) (Some (sqrt (0 # 2)))
        :: EvResetGame :: evs ++ trace (world st) /\
    Forall step_event evs.
Proof.
  intros fl w0.
  destruct (TrainingLoop fl sqrt 5 10 3 (Toy.fresh w0)) as [st| |] eqn:Hloop;
    [|vm_compute in Hloop; discriminate..].
  destruct (main_train fl sqrt 5 10 3 0 w0) as [w| |] eqn:Hmain;
    [|vm_compute in Hmain; discriminate..].
  vm_compute in Hloop. injection Hloop as Est.
  vm_compute in Hmain. injection Hmain as Ew.
  exists st, w, (take 4 (drop 3 (trace w))).
  rewrite <- Est, <- Ew. cbn [world trace dqn last_eval_iter].
  split_and!; [reflexivity..|eexists; reflexivity|reflexivity|reflexivity|].
  cbn [take drop]. repeat constructor.
Qed.

(** * Further properties *)

(** ** How an episode can fail to complete *)

Section EpisodeFailures.

Context {emulator : ALEInterface} {agent : DQNInterface}.
Variable flags : Flags.

Lemma LoopBody_Fatal epsilon update w l f :
  LoopBody flags epsilon update w l = Fatal f ->
  f = DivideByZero /\ update = true /\ FLAGS_update_frequency flags = 0.
Proof.
  unfold LoopBody.
  destruct (AdvanceStack_total flags update w l) as (w1 & l1 & ->).
  cbn [mbind Result_bind].
  destruct (ChooseAction flags epsilon w1 l1) as [[w2 fa] a].
  destruct (RepeatAction _ (ale w2) a 0%Q) as [a3 isc]. cbn [ale].
  pose proof (ShapeReward_assert isc (lives a3) (remaining_lives l1)) as Hassert.
  destruct (ShapeReward isc (lives a3) (remaining_lives l1)) as [rw rl].
  cbn [fst] in Hassert. rewrite Hassert. cbn [check mbind Result_bind].
  destruct update; [|discriminate].
  unfold RecordTransition, alloc, LearningUpdate. cbn [dqn ale store trace frame].
  destruct (memory_size (dqn w2) >? FLAGS_memory_threshold flags); [|discriminate].
  destruct (Z.eqb_spec (FLAGS_update_frequency flags) 0) as [Hz|Hnz].
  - cbn [negb check mbind Result_bind]. intros [= <-]. auto.
  - cbn [negb check mbind Result_bind].
    destruct (Z.rem _ _ =? 0); discriminate.
Qed.

Lemma LoopBody_not_OutOfFuel epsilon update w l :
  LoopBody flags epsilon update w l <> OutOfFuel.
Proof.
  unfold LoopBody.
  destruct (AdvanceStack_total flags update w l) as (w1 & l1 & ->).
  cbn [mbind Result_bind].
  destruct (ChooseAction flags epsilon w1 l1) as [[w2 fa] a].
  destruct (RepeatAction _ (ale w2) a 0%Q) as [a3 isc]. cbn [ale].
  pose proof (ShapeReward_assert isc (lives a3) (remaining_lives l1)) as Hassert.
  destruct (ShapeReward isc (lives a3) (remaining_lives l1)) as [rw rl].
  cbn [fst] in Hassert. rewrite Hassert. cbn [check mbind Result_bind].
  destruct update; [|discriminate].
  unfold RecordTransition, alloc, LearningUpdate. cbn [dqn ale store trace frame].
  destruct (memory_size (dqn w2) >? FLAGS_memory_threshold flags); [|discriminate].
  destruct (negb (FLAGS_update_frequency flags =? 0));
    cbn [check mbind Result_bind]; [|discriminate].
  destruct (Z.rem _ _ =? 0); discriminate.
Qed.

Lemma PlayLoop_Fatal fuel epsilon update w l f :
  PlayLoop flags fuel epsilon update w l = Fatal f ->
  f = DivideByZero /\ update = true /\ FLAGS_update_frequency flags = 0.
Proof.
  revert w l. induction fuel as [|fuel IH]; intros w l; cbn [PlayLoop];
    destruct (game_over (ale w)); try discriminate.
  destruct (LoopBody flags epsilon update w l) as [[[w1 l1] info]|f'|] eqn:Hbody;
    cbn [mbind Result_bind].
  - apply IH.
  - intros [= <-]. eapply LoopBody_Fatal, Hbody.
  - discriminate.
Qed.

(** X3.  An episode started on a game that is over aborts on the [CHECK] of
    line 76.  That is the only [CHECK] that can fail: the [CHECK_LE] on the
    stack and the [assert] on the reward never do, and the one other way in
    which an episode aborts is the remainder by an update frequency of zero,
    in update mode. *)
Theorem PlayOneEpisode_aborts fuel w epsilon update :
  (game_over (ale w) = true ->
   PlayOneEpisode flags fuel w epsilon update = Fatal CheckFailed) /\
  (forall f,
     PlayOneEpisode flags fuel w epsilon update = Fatal f ->
     (f = CheckFailed /\ game_over (ale w) = true) \/
     (f = DivideByZero /\ update = true /\ FLAGS_update_frequency flags = 0 /\
      game_over (ale w) = false)).
Proof.
  unfold PlayOneEpisode. split.
  - intros ->. reflexivity.
  - intros f. destruct (game_over (ale w)); cbn [negb check mbind Result_bind].
    + intros [= <-]. left. auto.
    + destruct (ObserveFrame flags w) as [w1 cf].
      destruct (PlayLoop flags fuel epsilon update w1 (InitialLocals w1 cf))
        as [[w2 l2]|f'|] eqn:Hloop; cbn [mbind Result_bind]; try discriminate.
      intros [= <-]. right. apply PlayLoop_Fatal in Hloop as (-> & -> & ->). auto.
Qed.

(** *** A repeat count that is not positive *)

Lemma LoopBody_no_act epsilon update w l w' l' info :
  add32 (FLAGS_skip_frame flags) 1 <= 0 ->
  LoopBody flags epsilon update w l = Done (w', l', info) ->
  ale w' = ale w.
Proof.
  intros Hskip Hrun. apply LoopBody_ale in Hrun.
  replace (Z.to_nat (add32 (FLAGS_skip_frame flags) 1)) with 0%nat in Hrun by lia.
  cbn [RepeatAction] in Hrun. congruence.
Qed.

Lemma PlayLoop_no_act fuel epsilon update w l w' l' :
  add32 (FLAGS_skip_frame flags) 1 <= 0 ->
  game_over (ale w) = false ->
  PlayLoop flags fuel epsilon update w l <> Done (w', l').
Proof.
  intros Hskip. revert w l.
  induction fuel as [|fuel IH]; intros w l Hover; cbn [PlayLoop]; rewrite Hover;
    [discriminate|].
  destruct (LoopBody flags epsilon update w l) as [[[w1 l1] info]|f'|] eqn:Hbody;
    cbn [mbind Result_bind]; [|discriminate..].
  apply IH. apply (LoopBody_no_act _ _ _ _ _ _ _ Hskip) in Hbody. congruence.
Qed.

(** X4.  When [FLAGS_skip_frame + 1] is not positive, the loop that repeats
    the action makes no call of [act], the game never ends, and no episode
    completes, whatever the number of iterations. *)
Theorem PlayOneEpisode_negative_skip fuel w epsilon update w' score :
  add32 (FLAGS_skip_frame flags) 1 <= 0 ->
  PlayOneEpisode flags fuel w epsilon update <> Done (w', score).
Proof.
  intros Hskip Hrun. apply PlayOneEpisode_Done in Hrun as (Hover & w2 & l2 & Hloop & _).
  eapply PlayLoop_no_act; [exact Hskip| |exact Hloop].
  rewrite ObserveFrame_ale. exact Hover.
Qed.

End EpisodeFailures.

(** The five-act game with [FLAGS_skip_frame = -1]. *)
Lemma PlayOneEpisode_negative_skip_witness :
  add32 (FLAGS_skip_frame (Toy.flags 2 (-1))) 1 <= 0 /\
  forall w' score,
    PlayOneEpisode (Toy.flags 2 (-1)) 10 (Toy.start Toy.game1 3 0 1)
      (Some (1 # 2)) false <> Done (w', score).
Proof.
  assert (Hskip : add32 (FLAGS_skip_frame (Toy.flags 2 (-1))) 1 <= 0)
    by (vm_compute; discriminate).
  split; [exact Hskip|]. intros w' score.
  exact (PlayOneEpisode_negative_skip (Toy.flags 2 (-1)) 10
           (Toy.start Toy.game1 3 0 1) (Some (1 # 2)) false w' score Hskip).
Defined.

(** ** The episode that is handed to the agent *)

Section EpisodeShape.

Context {emulator : ALEInterface} {agent : DQNInterface}.
Variable flags : Flags.

Lemma reaches_chain epsilon w0 k w l :
  LoopReaches flags epsilon true (EnterLoop flags w0).1 (EnterLoop flags w0).2
    k w l ->
  current_frame l = (length (store w0) + k)%nat /\
  length (store w) = S (length (store w0) + k) /\
  length (episode l) = k /\
  forall i t, episode l !! i = Some t ->
    t_frame t = (length (store w0) + i)%nat /\
    (t_next t = None \/ t_next t = Some (length (store w0) + S i)%nat).
Proof.
  intros Hreach.
  induction Hreach as [|k w l w' l' info Hreach IH Hover Hbody].
  - destruct (EnterLoop_state flags w0) as (_ & Hcur & Hlen & _ & Hep).
    rewrite Hcur, Hlen, Hep. split_and!; [lia|lia|reflexivity|].
    intros i t Hi. destruct i; discriminate.
  - destruct IH as (Hcur & Hlen & Hk & Hall).
    pose proof (LoopBody_episode _ _ _ _ _ _ _ Hbody) as [Hep Hcur'].
    apply LoopBody_stack in Hbody as (_ & Hlen' & _); [|intros _; lia].
    cbn [next_iteration current_frame episode]. rewrite Hep, Hcur', Hlen', Hlen.
    split_and!; [lia|lia|rewrite length_app; cbn [length]; lia|].
    intros i t Hi. apply lookup_app_Some in Hi as [Hi|[Hge Hi]].
    + apply Hall, Hi.
    + apply list_lookup_singleton_Some in Hi as [Hi <-]. cbn [t_frame t_next].
      rewrite Hcur. split; [f_equal; lia|].
      destruct (game_over (ale w')); [left; reflexivity|right; f_equal; lia].
Qed.

(** X5.  In the episode that [PlayOneEpisode] hands to the agent in update
    mode, the transitions are chained: the frame of the [i]-th one is the
    [i]-th frame made since the start of the episode, and the next frame of
    a transition is the frame of the transition that follows it.  The
    episode has made one frame more than it has transitions. *)
Theorem PlayOneEpisode_transitions_chained fuel w epsilon w' score :
  PlayOneEpisode flags fuel w epsilon true = Done (w', score) ->
  exists e tr,
    trace w' = EvResetGame :: EvRememberEpisode e :: tr /\
    length (store w') = (length (store w) + length e + 1)%nat /\
    (forall i t, e !! i = Some t -> t_frame t = (length (store w) + i)%nat) /\
    (forall i t t', e !! i = Some t -> e !! S i = Some t' ->
       t_next t = Some (t_frame t')).
Proof.
  intros Hrun.
  pose proof (PlayOneEpisode_Done _ _ _ _ _ _ _ Hrun)
    as (_ & w2 & l2 & Hloop & _ & Hw').
  apply PlayLoop_reaches in Hloop as (k & Hreach & Hover).
  assert (Hreach' : LoopReaches flags epsilon true
            (EnterLoop flags w).1 (EnterLoop flags w).2 k w2 l2).
  { unfold EnterLoop. destruct (ObserveFrame flags w). exact Hreach. }
  pose proof (reaches_chain _ _ _ _ _ Hreach') as (_ & Hlen & Hk & Hall).
  apply reaches_episode in Hreach'; [|rewrite (proj2 (proj2 (proj2 (proj2
    (EnterLoop_state flags w))))); constructor].
  exists (episode l2), (trace w2). subst w'. cbn [trace store].
  split_and!; [reflexivity|lia|intros i t Hi; apply Hall, Hi|].
  intros i t t' Hi Hi'.
  destruct (Hall _ _ Hi') as [-> _].
  destruct (Hall _ _ Hi) as [_ [Hnone|Hsome]]; [|rewrite Hsome; f_equal; lia].
  exfalso. destruct Hreach' as [(Hk0 & _)|(init & last & He & Hopen & _)].
  { rewrite Hk0 in Hk. apply nil_length_inv in Hk. rewrite Hk in Hi.
    destruct i; discriminate. }
  rewrite He in Hi, Hi'.
  apply lookup_lt_Some in Hi'. rewrite length_app in Hi'. cbn [length] in Hi'.
  apply lookup_app_Some in Hi as [Hi|[Hge _]]; [|lia].
  eapply Forall_lookup_1 in Hopen; [|exact Hi].
  rewrite Hnone in Hopen. destruct Hopen as [? [=]].
Qed.

(** *** The score *)

Lemma play_app (a : ALE) xs ys :
  play a (xs ++ ys)
  = ((play (play a xs).1 ys).1, (play a xs).2 + (play (play a xs).1 ys).2).
Proof.
  revert a. induction xs as [|x xs IH]; intros a; cbn [play app fst snd].
  - destruct (play a ys). reflexivity.
  - destruct (act a x) as [a1 r]. rewrite IH.
    destruct (play a1 xs) as [a2 s]. cbn [fst snd].
    destruct (play a2 ys) as [a3 t]. cbn [fst snd]. f_equal. lia.
Qed.

Lemma alive_app (a : ALE) xs ys :
  alive a (xs ++ ys) = alive a xs && alive (play a xs).1 ys.
Proof.
  revert a. induction xs as [|x xs IH]; intros a; cbn [alive play app fst].
  - reflexivity.
  - rewrite IH, andb_assoc. destruct (act a x) as [a1 r]. cbn [fst].
    destruct (play a1 xs). reflexivity.
Qed.

(** The calls of [act] that the repetition of an action makes. *)
Lemma RepeatAction_play n a x sc a' sc' :
  RepeatAction n a x sc = (a', sc') ->
  exists m, (m <= n)%nat /\
    alive a (replicate m x) = true /\
    (play a (replicate m x)).1 = a' /\
    (sc' == sc + inject_Z (play a (replicate m x)).2)%Q.
Proof.
  revert a sc. induction n as [|n IH]; intros a sc; cbn [RepeatAction].
  - intros [= <- <-]. exists 0%nat. cbn. split_and!; [lia|reflexivity..|].
    unfold inject_Z. ring.
  - destruct (game_over a) eqn:Hover.
    + intros [= <- <-]. exists 0%nat. cbn. split_and!; [lia|reflexivity..|].
      unfold inject_Z. ring.
    + destruct (act a x) as [a1 r] eqn:Hact. intros Hrun.
      apply IH in Hrun as (m & Hm & Hal & Hend & Hsc).
      exists (S m). cbn [replicate alive play]. rewrite Hover, Hact. cbn [fst negb andb].
      destruct (play a1 (replicate m x)) as [a2 s]. cbn [fst snd] in *.
      split_and!; [lia|exact Hal|exact Hend|].
      rewrite Hsc, inject_Z_plus. ring.
Qed.

Lemma LoopBody_total_score epsilon update w l w' l' info :
  LoopBody flags epsilon update w l = Done (w', l', info) ->
  total_score l' = (total_score l + immediate_score info)%Q.
Proof.
  intros Hrun. apply LoopBody_Done in Hrun.
  destruct Hrun as (w1 & l1 & w2 & fa & a3 & Hadv & _ & _ & _ & Hrec).
  apply AdvanceStack_Done in Hadv as [_ ->]. cbn [total_score] in Hrec.
  destruct update.
  - apply RecordTransition_Done in Hrec as [_ ->]. reflexivity.
  - injection Hrec as _ ->. reflexivity.
Qed.

(** The calls of [act] made by the iterations of an episode. *)
Lemma reaches_play epsilon update w0 l0 k w l :
  LoopReaches flags epsilon update w0 l0 k w l ->
  exists xs,
    (length xs <= k * Z.to_nat (add32 (FLAGS_skip_frame flags) 1))%nat /\
    alive (ale w0) xs = true /\
    (play (ale w0) xs).1 = ale w /\
    (total_score l == total_score l0 + inject_Z (play (ale w0) xs).2)%Q.
Proof.
  intros Hreach.
  induction Hreach as [|k w l w' l' info Hreach IH Hover Hbody].
  - exists []. cbn. split_and!; [lia|reflexivity..|]. unfold inject_Z. ring.
  - destruct IH as (xs & Hlen & Hal & Hend & Hsc).
    pose proof (LoopBody_total_score _ _ _ _ _ _ _ Hbody) as Htot.
    apply LoopBody_ale, RepeatAction_play in Hbody as (m & Hm & Hal' & Hend' & Hsc').
    exists (xs ++ replicate m (action info)).
    rewrite alive_app, play_app, Hal, Hend, Hal', Hend'.
    cbn [fst snd next_iteration total_score andb].
    split_and!; [rewrite length_app, length_replicate; lia|reflexivity..|].
    rewrite Htot, Hsc, Hsc', inject_Z_plus. ring.
Qed.

(** X6.  The score that [PlayOneEpisode] returns is the sum of the score
    deltas that its calls of [act] returned.  These calls are made one
    after the other from the game the episode was started on, each on a
    game that is not over, the last one ends the game, and the game is
    reset after it.  There are at most [FLAGS_skip_frame + 1] of them for
    each iteration that the fuel allows. *)
Theorem PlayOneEpisode_score_sum fuel w epsilon update w' score :
  PlayOneEpisode flags fuel w epsilon update = Done (w', score) ->
  exists xs,
    xs <> [] /\
    alive (ale w) xs = true /\
    game_over (play (ale w) xs).1 = true /\
    ale w' = reset_game (play (ale w) xs).1 /\
    (score == inject_Z (play (ale w) xs).2)%Q.
Proof.
  intros Hrun.
  pose proof (PlayOneEpisode_Done _ _ _ _ _ _ _ Hrun)
    as (Hstart & w2 & l2 & Hloop & -> & ->).
  apply PlayLoop_reaches in Hloop as (k & Hreach & Hover).
  apply reaches_play in Hreach as (xs & _ & Hal & Hend & Hsc).
  assert (Hale : ale (ObserveFrame flags w).1 = ale w) by reflexivity.
  rewrite Hale in Hal, Hend. exists xs. cbn [ale]. rewrite Hend.
  split_and!; [|exact Hal|exact Hover|reflexivity|].
  - intros ->. cbn [play fst] in Hend. congruence.
  - rewrite Hsc, Hale. cbn [InitialLocals total_score]. apply Qplus_0_l.
Qed.

End EpisodeShape.

Lemma PlayOneEpisode_transitions_chained_witness :
  exists w' score e tr,
    PlayOneEpisode (Toy.flags 2 0) 10 (Toy.start Toy.game1 3 0 1)
      (Some (1 # 2)) true = Done (w', score) /\
    trace w' = EvResetGame :: EvRememberEpisode e :: tr /\
    length (store w') = (0 + length e + 1)%nat /\
    forall i t, e !! i = Some t -> t_frame t = (0 + i)%nat.
Proof.
  destruct (PlayOneEpisode (Toy.flags 2 0) 10 (Toy.start Toy.game1 3 0 1)
              (Some (1 # 2)) true) as [[w' score]| |] eqn:Hrun;
    [|vm_compute in Hrun; discriminate..].
  destruct (PlayOneEpisode_transitions_chained _ _ _ _ _ _ Hrun)
    as (e & tr & Htr & Hlen & Hfr & _).
  exists w', score, e, tr. split; [reflexivity|]. auto.
Defined.

(** The evaluation episode of the five-act game: five calls of [act], whose
    deltas add up to 7. *)
Lemma PlayOneEpisode_score_sum_witness :
  exists w' score xs,
    PlayOneEpisode (Toy.flags 2 0) 10 (Toy.start Toy.game1 3 0 1)
      (Some (1 # 2)) false = Done (w', score) /\
    alive (Toy.load Toy.game1 3) xs = true /\
    ale w' = reset_game (play (Toy.load Toy.game1 3) xs).1 /\
    (score == inject_Z (play (Toy.load Toy.game1 3) xs).2)%Q /\
    (score == 7)%Q.
Proof.
  destruct (PlayOneEpisode (Toy.flags 2 0) 10 (Toy.start Toy.game1 3 0 1)
              (Some (1 # 2)) false) as [[w' score]| |] eqn:Hrun;
    [|vm_compute in Hrun; discriminate..].
  destruct (PlayOneEpisode_score_sum _ _ _ _ _ _ _ Hrun)
    as (xs & _ & Hal & _ & Hale & Hsc).
  exists w', score, xs. split; [reflexivity|].
  split; [exact Hal|]. split; [exact Hale|]. split; [exact Hsc|].
  vm_compute in Hrun. injection Hrun as _ <-. reflexivity.
Defined.

(** ** What the agent is asked and shown *)

Section Selection.

Context {emulator : ALEInterface} {agent : DQNInterface}.
Variable flags : Flags.

Local Abbreviation W := (FLAGS_frames_per_timestep flags).
Local Abbreviation obscure :=
  (fun f : FrameData => ObscureScreen f (FLAGS_obscure_size flags)).

(** The store as action selection sees it. *)
Lemma AdvanceStack_store update w l w1 l1 :
  AdvanceStack flags update w l = Done (w1, l1) ->
  trace w1 = trace w /\ first_action l1 = first_action l /\
  store w1 = (if update then store w else store (ObserveFrame flags w).1).
Proof.
  intros Hadv. apply AdvanceStack_Done in Hadv as [-> ->].
  destruct update; auto.
Qed.

(** The events of a completed iteration: the call of [SelectAction], made
    when the stack is full, then the call of [UpdateRandom], which only
    update mode makes. *)
Lemma LoopBody_selection epsilon update w l w' l' info :
  LoopBody flags epsilon update w l = Done (w', l', info) ->
  exists upd sel,
    trace w' = upd ++ sel ++ trace w /\
    (upd = [] \/ (upd = [EvUpdateRandom] /\ update = true)) /\
    ((Z.of_nat (length (past_frames l')) = to_size_t W /\
      sel = [EvSelectAction (past_frames l')
               ((fun p => (if update then store w
                           else store (ObserveFrame flags w).1) !! p)
                  <$> past_frames l')
               epsilon (negb (first_action l)) (action info)] /\
      first_action l' = false) \/
     (Z.of_nat (length (past_frames l')) <> to_size_t W /\ sel = [] /\
      first_action l' = first_action l /\ action info = PLAYER_A_NOOP)).
Proof.
  intros Hrun. apply LoopBody_Done in Hrun.
  destruct Hrun as (w1 & l1 & w2 & fa & a3 & Hadv & Hch & _ & _ & Hrec).
  apply AdvanceStack_store in Hadv as (Htr & Hfa & Hst).
  assert (Hsel : exists sel, trace w2 = sel ++ trace w /\
    ((Z.of_nat (length (past_frames l1)) = to_size_t W /\
      sel = [EvSelectAction (past_frames l1)
               ((fun p => store w1 !! p) <$> past_frames l1)
               epsilon (negb (first_action l)) (action info)] /\ fa = false) \/
     (Z.of_nat (length (past_frames l1)) <> to_size_t W /\ sel = [] /\
      fa = first_action l /\ action info = PLAYER_A_NOOP))).
  { unfold ChooseAction in Hch. rewrite Hfa, Htr in Hch.
    destruct (Z.eqb_spec (Z.of_nat (length (past_frames l1))) (to_size_t W)).
    - destruct (SelectAction _ _ _ _ _) as [d a']. injection Hch as <- <- <-.
      eexists [_]. split; [reflexivity|]. left. auto.
    - injection Hch as <- <- <-. exists []. split; [exact Htr|].
      right. auto. }
  destruct Hsel as (sel & Htr2 & Hcases). rewrite Hst in Hcases.
  destruct update.
  - apply RecordTransition_Done in Hrec as [Hlearn ->].
    apply LearningUpdate_Done in Hlearn. subst w'.
    cbn [past_frames first_action].
    destruct (_ && _); cbn [trace].
    + exists [EvUpdateRandom], sel. rewrite Htr2. split; [reflexivity|].
      split; [right; auto|exact Hcases].
    + exists [], sel. rewrite Htr2. split; [reflexivity|].
      split; [left; auto|exact Hcases].
  - injection Hrec as -> ->. cbn [trace past_frames first_action].
    exists [], sel. rewrite Htr2. split; [reflexivity|].
    split; [left; auto|exact Hcases].
Qed.

Lemma continuations_app (tr1 tr2 : list Event) :
  continuations (tr1 ++ tr2) = continuations tr1 ++ continuations tr2.
Proof. apply omap_app. Qed.

Lemma reaches_continuations epsilon update w0 k w l :
  LoopReaches flags epsilon update (EnterLoop flags w0).1 (EnterLoop flags w0).2
    k w l ->
  exists evs,
    trace w = evs ++ trace w0 /\
    (update = false -> Forall select_event evs) /\
    ((first_action l = true /\ continuations evs = []) \/
     (first_action l = false /\
      exists m, continuations evs = replicate m true ++ [false])).
Proof.
  intros Hreach.
  induction Hreach as [|k w l w' l' info Hreach IH Hover Hbody].
  - exists []. unfold EnterLoop. destruct (ObserveFrame flags w0) eqn:E.
    cbn [fst snd InitialLocals first_action].
    assert (trace w = trace w0) as -> by (unfold ObserveFrame, alloc in E;
      injection E as <- _; reflexivity).
    split_and!; [reflexivity|constructor|left; auto].
  - destruct IH as (evs & Htr & Hoff & Hflag).
    apply LoopBody_selection in Hbody
      as (upd & sel & Htr' & Hupd & Hsel).
    exists (upd ++ sel ++ evs). rewrite Htr', Htr, !app_assoc.
    split; [reflexivity|]. cbn [next_iteration first_action].
    assert (Hcu : continuations upd = [])
      by (destruct Hupd as [->|[-> _]]; reflexivity).
    rewrite <- !app_assoc, !continuations_app, Hcu. cbn [app].
    split.
    + intros ->. destruct Hupd as [->|[_ [=]]]. cbn [app].
      apply Forall_app. split; [|auto].
      destruct Hsel as [(_ & -> & _)|(_ & -> & _)]; repeat constructor.
    + destruct Hsel as [(_ & -> & ->)|(_ & -> & -> & _)]; cbn.
      * right. split; [reflexivity|].
        destruct Hflag as [[-> ->]|[-> [m ->]]]; cbn.
        -- exists 0%nat. reflexivity.
        -- exists (S m). reflexivity.
      * exact Hflag.
Qed.

Lemma PlayOneEpisode_events fuel w epsilon update w' score :
  PlayOneEpisode flags fuel w epsilon update = Done (w', score) ->
  exists k w2 l2 evs,
    LoopReaches flags epsilon update (EnterLoop flags w).1 (EnterLoop flags w).2
      k w2 l2 /\
    trace w2 = evs ++ trace w /\
    trace w'
      = EvResetGame
        :: (if update then [EvRememberEpisode (episode l2)] else [])
        ++ evs ++ trace w.
Proof.
  intros Hrun.
  pose proof (PlayOneEpisode_Done _ _ _ _ _ _ _ Hrun)
    as (_ & w2 & l2 & Hloop & _ & ->).
  apply PlayLoop_reaches in Hloop as (k & Hreach & _).
  assert (Hreach' : LoopReaches flags epsilon update
            (EnterLoop flags w).1 (EnterLoop flags w).2 k w2 l2).
  { unfold EnterLoop. destruct (ObserveFrame flags w). exact Hreach. }
  destruct (reaches_continuations _ _ _ _ _ _ Hreach') as (evs & Htr & _).
  exists k, w2, l2, evs. cbn [trace]. rewrite Htr. auto.
Qed.

(** X7.  An episode played without update makes no call of [UpdateRandom],
    [RememberEpisode] or [Snapshot]: between its start and the one reset
    that ends it, the trace gains calls of [SelectAction] only.  (The trace
    does not hold the calls of [ObscureScreen], which the episode makes on
    its frames when [FLAGS_obscure_size] is positive.) *)
Theorem PlayOneEpisode_without_update fuel w epsilon w' score :
  PlayOneEpisode flags fuel w epsilon false = Done (w', score) ->
  exists evs,
    trace w' = EvResetGame :: evs ++ trace w /\ Forall select_event evs.
Proof.
  intros Hrun.
  apply PlayOneEpisode_events in Hrun as (k & w2 & l2 & evs & Hreach & Htr & ->).
  destruct (reaches_continuations _ _ _ _ _ _ Hreach) as (evs' & Htr' & Hoff & _).
  rewrite Htr in Htr'. apply app_inv_tail in Htr'. subst evs'.
  exists evs. split; [reflexivity|auto].
Qed.

(** X8.  Among the calls of [SelectAction] of a completed episode, the
    first is made with the continuation flag unset and every later one with
    the flag set. *)
Theorem PlayOneEpisode_one_start fuel w epsilon update w' score :
  PlayOneEpisode flags fuel w epsilon update = Done (w', score) ->
  exists evs,
    trace w' = EvResetGame :: evs ++ trace w /\
    (continuations evs = [] \/
     exists m, continuations evs = replicate m true ++ [false]).
Proof.
  intros Hrun.
  apply PlayOneEpisode_events in Hrun as (k & w2 & l2 & evs & Hreach & Htr & ->).
  destruct (reaches_continuations _ _ _ _ _ _ Hreach) as (evs' & Htr' & _ & Hflag).
  rewrite Htr in Htr'. apply app_inv_tail in Htr'. subst evs'.
  exists ((if update then [EvRememberEpisode (episode l2)] else []) ++ evs).
  split; [rewrite <- app_assoc; reflexivity|].
  rewrite continuations_app.
  replace (continuations (if update then [EvRememberEpisode (episode l2)] else []))
    with (@nil bool) by (destruct update; reflexivity).
  cbn [app]. destruct Hflag as [[_ ->]|[_ Hm]]; auto.
Qed.

(** The stack that an iteration leaves holds as many frames as iterations
    have begun, up to the window. *)
Lemma reaches_stack_length epsilon update w0 k w l w' l' info :
  0 <= W <= INT_MAX ->
  LoopReaches flags epsilon update (EnterLoop flags w0).1 (EnterLoop flags w0).2
    k w l ->
  LoopBody flags epsilon update w l = Done (w', l', info) ->
  Z.of_nat (length (past_frames l')) = Z.of_nat (S k) `min` W.
Proof.
  intros HW Hreach Hbody.
  assert (HWn : to_size_t W = W).
  { apply to_size_t_nonneg. unfold INT_MAX in HW. lia. }
  destruct (EnterLoop_state flags w0) as (Hempty & Hcur & Hlen0 & _).
  apply reaches_stack in Hreach as (_ & Hcur' & Hnext & Hpf);
    [|exact Hempty|intros _; lia].
  apply LoopBody_stack in Hbody as (Hpf' & _); [|exact Hcur'].
  rewrite Hpf', Hpf.
  pose proof (push_on_window W k (next_pushed update w l)) as Hpush.
  cbv zeta in Hpush.
  etrans; [apply f_equal, f_equal, Hpush; lia|].
  rewrite length_seq, HWn. lia.
Qed.

(** X9.  In the iteration that follows [k] completed ones, for a window [W]
    that is not negative: while fewer than [W] iterations have begun, the
    agent is not asked and the action is [PLAYER_A_NOOP]; from the [W]-th
    iteration on, [SelectAction] is called once, on a stack of [W] frames,
    and its answer is the action.  Of the calls that the trace holds, the
    only other one that the iteration can make is [UpdateRandom], once and
    after the selection; the iteration makes no call of [RememberEpisode]
    or [Snapshot] and does not reset the game.  (The calls of
    [ObscureScreen] are not in the trace.) *)
Theorem SelectAction_when_stack_full epsilon update w0 k w l w' l' info :
  0 <= W <= INT_MAX ->
  LoopReaches flags epsilon update (EnterLoop flags w0).1 (EnterLoop flags w0).2
    k w l ->
  LoopBody flags epsilon update w l = Done (w', l', info) ->
  exists upd,
    (upd = [] \/ upd = [EvUpdateRandom]) /\
    (Z.of_nat (S k) < W ->
     action info = PLAYER_A_NOOP /\ trace w' = upd ++ trace w) /\
    (W <= Z.of_nat (S k) ->
     Z.of_nat (length (past_frames l')) = W /\
     exists seen continuation,
       trace w'
         = upd ++ EvSelectAction (past_frames l') seen epsilon continuation
                    (action info) :: trace w).
Proof.
  intros HW Hreach Hbody.
  assert (HWn : to_size_t W = W).
  { apply to_size_t_nonneg. unfold INT_MAX in HW. lia. }
  pose proof (reaches_stack_length _ _ _ _ _ _ _ _ _ HW Hreach Hbody) as Hlen.
  apply LoopBody_selection in Hbody as (upd & sel & Htr & Hupd & Hsel).
  rewrite HWn in Hsel.
  exists upd. split; [destruct Hupd as [->|[-> _]]; auto|].
  destruct Hsel as [(Hfull & -> & _)|(Hpart & -> & _ & Hnoop)].
  - split; [intros Hk; lia|]. intros Hk. split; [exact Hfull|].
    eexists _, _. exact Htr.
  - split; [|intros Hk; lia]. intros _. split; [exact Hnoop|exact Htr].
Qed.

End Selection.

(** The evaluation episode of the five-act game. *)
Lemma PlayOneEpisode_without_update_witness :
  exists w' score evs,
    PlayOneEpisode (Toy.flags 2 0) 10 (Toy.start Toy.game1 3 0 1)
      (Some (1 # 2)) false = Done (w', score) /\
    trace w' = EvResetGame :: evs /\ Forall select_event evs.
Proof.
  destruct (PlayOneEpisode (Toy.flags 2 0) 10 (Toy.start Toy.game1 3 0 1)
              (Some (1 # 2)) false) as [[w' score]| |] eqn:Hrun;
    [|vm_compute in Hrun; discriminate..].
  destruct (PlayOneEpisode_without_update _ _ _ _ _ _ Hrun) as (evs & Htr & Hall).
  exists w', score, evs. split; [reflexivity|]. split; [|exact Hall].
  rewrite Htr. cbn [trace Toy.start]. rewrite app_nil_r. reflexivity.
Defined.

(** The training episode of the five-act game. *)
Lemma PlayOneEpisode_one_start_witness :
  exists w' score evs,
    PlayOneEpisode (Toy.flags 2 0) 10 (Toy.start Toy.game1 3 0 1)
      (Some (1 # 2)) true = Done (w', score) /\
    trace w' = EvResetGame :: evs /\
    (continuations evs = [] \/
     exists m, continuations evs = replicate m true ++ [false]).
Proof.
  destruct (PlayOneEpisode (Toy.flags 2 0) 10 (Toy.start Toy.game1 3 0 1)
              (Some (1 # 2)) true) as [[w' score]| |] eqn:Hrun;
    [|vm_compute in Hrun; discriminate..].
  destruct (PlayOneEpisode_one_start _ _ _ _ _ _ _ Hrun) as (evs & Htr & Hflags).
  exists w', score, evs. split; [reflexivity|]. split; [|exact Hflags].
  rewrite Htr. cbn [trace Toy.start]. rewrite app_nil_r. reflexivity.
Defined.

(** The first two iterations of the five-act game with a window of two
    frames: in the first the agent is not asked, in the second it is asked
    once, on two frames, and its answer is the action. *)
Lemma SelectAction_when_stack_full_witness :
  exists w1 l1 i1 w2 l2 i2 upd seen continuation,
    LoopBody (Toy.flags 2 0) (Some (1 # 2)) true
      (EnterLoop (Toy.flags 2 0) (Toy.start Toy.game1 3 0 1)).1
      (EnterLoop (Toy.flags 2 0) (Toy.start Toy.game1 3 0 1)).2
      = Done (w1, l1, i1) /\
    action i1 = PLAYER_A_NOOP /\
    LoopBody (Toy.flags 2 0) (Some (1 # 2)) true w1 (next_iteration l1)
      = Done (w2, l2, i2) /\
    length (past_frames l2) = 2%nat /\
    (upd = [] \/ upd = [EvUpdateRandom]) /\
    trace w2
      = upd ++ EvSelectAction (past_frames l2) seen (Some (1 # 2)) continuation
                 (action i2) :: trace w1.
Proof.
  set (fl := Toy.flags 2 0). set (s0 := EnterLoop fl (Toy.start Toy.game1 3 0 1)).
  destruct (LoopBody fl (Some (1 # 2)) true s0.1 s0.2)
    as [[[w1 l1] i1]| |] eqn:H1; [|vm_compute in H1; discriminate..].
  pose proof H1 as E1. vm_compute in E1. injection E1 as Ew1 El1 _.
  destruct (LoopBody fl (Some (1 # 2)) true w1 (next_iteration l1))
    as [[[w2 l2] i2]| |] eqn:H2;
    [|rewrite <- Ew1, <- El1 in H2; vm_compute in H2; discriminate..].
  assert (HW : 0 <= FLAGS_frames_per_timestep fl <= INT_MAX)
    by (vm_compute; split; discriminate).
  assert (Hreach : LoopReaches fl (Some (1 # 2)) true s0.1 s0.2 1
                     w1 (next_iteration l1)).
  { eapply reaches_step; [apply reaches_start|reflexivity|exact H1]. }
  destruct (SelectAction_when_stack_full fl _ _ _ 0 _ _ _ _ _ HW
              (reaches_start fl _ _ s0.1 s0.2) H1) as (upd1 & _ & Hnoop & _).
  destruct (SelectAction_when_stack_full fl _ _ _ 1 _ _ _ _ _ HW Hreach H2)
    as (upd & Hupd & _ & Hfull).
  destruct Hfull as (Hlen & seen & continuation & Htr);
    [vm_compute; discriminate|].
  exists w1, l1, i1, w2, l2, i2, upd, seen, continuation.
  split; [reflexivity|].
  split; [apply Hnoop; vm_compute; reflexivity|].
  split; [exact H2|].
  split; [apply Nat2Z.inj; exact Hlen|].
  split; [exact Hupd|exact Htr].
Defined.

(** ** The frames of the store *)

Section Frames.

Context {emulator : ALEInterface} {agent : DQNInterface}.
Variable flags : Flags.

Local Abbreviation size := (FLAGS_obscure_size flags).
Local Abbreviation obscure := (fun f : FrameData => ObscureScreen f size).

Lemma ObserveFrame_grown w :
  store (ObserveFrame flags w).1
    = grown flags (store w) (PreprocessScreen (getScreen (ale w))) (length (store w)).
Proof. unfold ObserveFrame, alloc, grown. destruct (size >? 0); reflexivity. Qed.

(** The store that a completed iteration leaves. *)
Lemma LoopBody_store epsilon update w l w' l' info :
  LoopBody flags epsilon update w l = Done (w', l', info) ->
  store w'
    = grown flags (store w)
        (PreprocessScreen (getScreen (if update then ale w' else ale w)))
        (next_pushed update w l).
Proof.
  intros Hrun. apply LoopBody_Done in Hrun.
  destruct Hrun as (w1 & l1 & w2 & fa & a3 & Hadv & Hch & _ & _ & Hrec).
  apply AdvanceStack_Done in Hadv as [-> ->].
  apply ChooseAction_ale in Hch as [_ Hst].
  destruct update.
  - apply RecordTransition_Done in Hrec as [Hlearn _].
    apply LearningUpdate_ale in Hlearn as [-> ->].
    cbn [ale store fst snd current_frame next_pushed] in *.
    unfold store_after_lookahead, grown. cbn [ale store current_frame].
    rewrite Hst. reflexivity.
  - injection Hrec as -> _. cbn [store fst next_pushed] in *.
    rewrite Hst. apply ObserveFrame_grown.
Qed.

Lemma grown_after (old new : list FrameData) raw q :
  (length old <= q)%nat ->
  exists new', grown flags (old ++ new) raw q = old ++ new' /\
               length new' = S (length new).
Proof.
  intros Hq. unfold grown. destruct (size >? 0).
  - rewrite <- app_assoc, alter_app_r_alt by exact Hq.
    eexists. split; [reflexivity|].
    rewrite length_alter, length_app. cbn [length]. lia.
  - rewrite <- app_assoc. eexists. split; [reflexivity|].
    rewrite length_app. cbn [length]. lia.
Qed.

Lemma reaches_store epsilon update w0 k w l :
  LoopReaches flags epsilon update (EnterLoop flags w0).1 (EnterLoop flags w0).2
    k w l ->
  exists new, store w = store w0 ++ new /\ length new = S k /\
              (length (store w0) <= next_pushed update w l)%nat.
Proof.
  intros Hreach.
  induction Hreach as [|k w l w' l' info Hreach IH Hover Hbody].
  - destruct (EnterLoop_state flags w0) as (_ & Hcur & _).
    assert (Hst : store (EnterLoop flags w0).1
                  = grown flags (store w0 ++ []) (PreprocessScreen (getScreen (ale w0)))
                      (length (store w0))).
    { rewrite app_nil_r. unfold EnterLoop.
      pose proof (ObserveFrame_grown w0) as Hg.
      destruct (ObserveFrame flags w0). exact Hg. }
    destruct (grown_after (store w0) [] (PreprocessScreen (getScreen (ale w0)))
                (length (store w0)) ltac:(lia)) as (new & Hnew & Hlen).
    exists new. rewrite Hst, Hnew. split_and!; [reflexivity|exact Hlen|].
    destruct update; cbn [next_pushed]; [lia|].
    rewrite Hst, Hnew, length_app. lia.
  - destruct IH as (new & Hst & Hlen & Hq).
    pose proof (LoopBody_store _ _ _ _ _ _ _ Hbody) as Hst'.
    rewrite Hst in Hst'.
    destruct (grown_after (store w0) new
                (PreprocessScreen (getScreen (if update then ale w' else ale w)))
                (next_pushed update w l) Hq) as (new' & Hnew' & Hlen').
    rewrite Hnew' in Hst'. exists new'.
    split_and!; [exact Hst'|lia|].
    destruct update; cbn [next_pushed next_iteration current_frame].
    + apply LoopBody_episode in Hbody as [_ ->]. rewrite Hst, length_app. lia.
    + rewrite Hst', length_app. lia.
Qed.

(** The end of a completed episode, with the iterations it has made. *)
Lemma PlayOneEpisode_final fuel w epsilon update w' score :
  PlayOneEpisode flags fuel w epsilon update = Done (w', score) ->
  exists k w2 l2,
    LoopReaches flags epsilon update (EnterLoop flags w).1 (EnterLoop flags w).2
      k w2 l2 /\
    store w' = store w2 /\
    trace w'
      = EvResetGame
        :: (if update then [EvRememberEpisode (episode l2)] else [])
        ++ trace w2.
Proof.
  intros Hrun.
  pose proof (PlayOneEpisode_Done _ _ _ _ _ _ _ Hrun)
    as (_ & w2 & l2 & Hloop & _ & ->).
  apply PlayLoop_reaches in Hloop as (k & Hreach & _).
  exists k, w2, l2. split; [|split; reflexivity].
  unfold EnterLoop. destruct (ObserveFrame flags w). exact Hreach.
Qed.

(** X10.  An episode leaves the frames that were in the store before it as
    they were: it only adds frames, one as it starts and one in every
    iteration, and [ObscureScreen] is only called on frames it has added. *)
Theorem PlayOneEpisode_keeps_old_frames fuel w epsilon update w' score :
  PlayOneEpisode flags fuel w epsilon update = Done (w', score) ->
  exists new, store w' = store w ++ new /\ new <> [].
Proof.
  intros Hrun.
  apply PlayOneEpisode_final in Hrun as (k & w2 & l2 & Hreach & -> & _).
  apply reaches_store in Hreach as (new & Hst & Hlen & _).
  exists new. split; [exact Hst|]. intros ->. discriminate.
Qed.

(** *** The frames shown in an episode without update *)

Lemma grown_obscured (old new : list FrameData) raw :
  0 < size -> Forall (obscured flags) new ->
  exists new', grown flags (old ++ new) raw (length (old ++ new)) = old ++ new' /\
               length new' = S (length new) /\ Forall (obscured flags) new'.
Proof.
  intros Hsize Hall. unfold grown.
  destruct (Z.gtb_spec size 0) as [_|Hle]; [|lia].
  rewrite <- app_assoc, length_app, alter_app_r_alt by lia.
  replace (length old + length new - length old)%nat with (length new) by lia.
  rewrite alter_app_r_alt by lia. rewrite Nat.sub_diag. cbn [alter list_alter].
  eexists. split; [reflexivity|]. rewrite length_app. cbn [length].
  split; [lia|]. apply Forall_app. split; [exact Hall|].
  apply Forall_singleton. eexists. reflexivity.
Qed.

Lemma reaches_obscured epsilon w0 k w l :
  0 < size ->
  LoopReaches flags epsilon false (EnterLoop flags w0).1 (EnterLoop flags w0).2
    k w l ->
  exists new evs,
    store w = store w0 ++ new /\ Forall (obscured flags) new /\
    Forall (fun p => (length (store w0) <= p < length (store w))%nat)
      (past_frames l) /\
    trace w = evs ++ trace w0 /\ Forall (shown_obscured size) evs.
Proof.
  intros Hsize Hreach.
  induction Hreach as [|k w l w' l' info Hreach IH Hover Hbody].
  - destruct (EnterLoop_state flags w0) as (Hpf & _).
    assert (Hst : store (EnterLoop flags w0).1
                  = grown flags (store w0 ++ []) (PreprocessScreen (getScreen (ale w0)))
                      (length (store w0 ++ []))
                  /\ trace (EnterLoop flags w0).1 = trace w0).
    { rewrite app_nil_r. unfold EnterLoop.
      pose proof (ObserveFrame_grown w0) as Hg.
      destruct (ObserveFrame flags w0) eqn:E. split; [exact Hg|].
      unfold ObserveFrame, alloc in E. injection E as <- _. reflexivity. }
    destruct Hst as [Hst Htr].
    destruct (grown_obscured (store w0) [] (PreprocessScreen (getScreen (ale w0)))
                Hsize ltac:(constructor)) as (new & Hnew & _ & Hall).
    exists new, []. rewrite Hst, Hnew, Hpf, Htr.
    split_and!; [reflexivity|exact Hall|constructor|reflexivity|constructor].
  - destruct IH as (new & evs & Hst & Hall & Hpf & Htr & Hev).
    assert (Hobs : store (ObserveFrame flags w).1
                   = grown flags (store w0 ++ new) (PreprocessScreen (getScreen (ale w)))
                       (length (store w0 ++ new))).
    { rewrite ObserveFrame_grown, Hst. reflexivity. }
    destruct (grown_obscured (store w0) new (PreprocessScreen (getScreen (ale w)))
                Hsize Hall) as (new' & Hnew' & Hlen' & Hall').
    rewrite Hnew' in Hobs.
    pose proof (LoopBody_store _ _ _ _ _ _ _ Hbody) as Hst'.
    cbn [next_pushed] in Hst'. rewrite <- ObserveFrame_grown, Hobs in Hst'.
    pose proof (LoopBody_stack _ _ _ _ _ _ _ _ Hbody ltac:(discriminate))
      as (Hpf' & _).
    cbn [next_pushed] in Hpf'.
    assert (Hbound : Forall (fun p => (length (store w0) <= p
                                       < length (store w'))%nat) (past_frames l')).
    { rewrite Hpf', pop_front_while_over_drop. apply Forall_drop.
      rewrite Hst', Hst in *. rewrite !length_app in *.
      apply Forall_app. split.
      - eapply Forall_impl; [exact Hpf|]. cbn. intros p Hp. lia.
      - apply Forall_singleton. lia. }
    apply LoopBody_selection in Hbody as (upd & sel & Htr' & Hupd & Hsel).
    destruct Hupd as [->|[_ [=]]].
    exists new', (sel ++ evs). cbn [next_iteration past_frames].
    rewrite Htr', Htr. cbn [app]. rewrite app_assoc.
    split_and!; [exact Hst'|exact Hall'|exact Hbound|reflexivity|].
    apply Forall_app. split; [|exact Hev].
    destruct Hsel as [(_ & -> & _)|(_ & -> & _)]; [|constructor].
    apply Forall_singleton. cbn [shown_obscured].
    rewrite Hobs. apply Forall_fmap.
    eapply Forall_impl; [exact Hbound|]. cbn. intros p Hp.
    rewrite Hst', length_app in Hp.
    rewrite lookup_app_r by lia.
    destruct (lookup_lt_is_Some_2 new' (p - length (store w0))) as [f Hf]; [lia|].
    rewrite Hf. eapply Forall_lookup_1 in Hall'; [|exact Hf].
    destruct Hall' as [x ->]. eauto.
Qed.

(** X11.  With [FLAGS_obscure_size > 0], every frame that [SelectAction] is
    given in an episode without update is a frame that [ObscureScreen] has
    been through. *)
Theorem PlayOneEpisode_shows_obscured fuel w epsilon w' score :
  0 < size ->
  PlayOneEpisode flags fuel w epsilon false = Done (w', score) ->
  exists evs,
    trace w' = EvResetGame :: evs ++ trace w /\
    Forall (shown_obscured size) evs.
Proof.
  intros Hsize Hrun.
  apply PlayOneEpisode_final in Hrun as (k & w2 & l2 & Hreach & _ & ->).
  apply reaches_obscured in Hreach as (new & evs & _ & _ & _ & -> & Hev);
    [|exact Hsize].
  exists evs. split; [reflexivity|exact Hev].
Qed.

End Frames.

(** ** The training loop and the modes of [main] *)

Section TrainingMore.

Context {emulator : ALEInterface} {agent : DQNInterface}.
Variable flags : Flags.
Variable sqrt : Q -> Q.

Lemma TrainingIteration_best fuel st st' :
  TrainingIteration flags sqrt fuel st = Done st' ->
  (best_score st <= best_score st')%Q.
Proof.
  unfold TrainingIteration. intros Hrun.
  inv_bind Hrun as [w1 score] Hplay.
  destruct (_ || _).
  - inv_bind Hrun as [w2 avg_score] Heval.
    destruct (dgt avg_score (best_score st)) eqn:Hgt.
    + apply dgt_spec in Hgt as (a & -> & Hlt). injection Hrun as <-.
      cbn [best_score default]. apply Qlt_le_weak, Hlt.
    + injection Hrun as <-. cbn [best_score]. apply Qle_refl.
  - injection Hrun as <-. cbn [best_score]. apply Qle_refl.
Qed.

(** X12.  When the loop of [main] ends, the iteration count has reached the
    budget, and the best score is not below what it was when the loop was
    entered. *)
Theorem TrainingLoop_reaches_budget steps fuel max_iter st st' :
  TrainingLoop flags sqrt steps fuel max_iter st = Done st' ->
  max_iter <= current_iteration (dqn (world st')) /\
  (best_score st <= best_score st')%Q.
Proof.
  revert st. induction steps as [|steps IH]; intros st; cbn [TrainingLoop];
    destruct (Z.ltb_spec (current_iteration (dqn (world st))) max_iter)
      as [Hlt|Hge]; try discriminate.
  - intros [= <-]. split; [exact Hge|apply Qle_refl].
  - intros Hrun. inv_bind Hrun as st1 Hiter.
    apply TrainingIteration_best in Hiter. apply IH in Hrun as [Hb Hs].
    split; [exact Hb|]. eapply Qle_trans; eassumption.
  - intros [= <-]. split; [exact Hge|apply Qle_refl].
Qed.

(** X13.  Started on an agent that has already reached the budget and whose
    iteration count is not negative, [main] plays no training episode: it
    makes one evaluation and takes the snapshot at the save path. *)
Theorem main_train_budget_spent steps fuel max_iter hi_score w :
  max_iter <= current_iteration (dqn w) ->
  0 <= current_iteration (dqn w) ->
  main_train flags sqrt steps fuel max_iter hi_score w
    = '(w', _) ← Evaluate flags sqrt fuel w;
      mret (do_Snapshot w' SavePath true true).
Proof.
  intros Hbudget Hpos. unfold main_train.
  assert (Hloop : forall st, world st = w ->
            TrainingLoop flags sqrt steps fuel max_iter st = Done st).
  { intros st <-. destruct steps; cbn [TrainingLoop];
      destruct (Z.ltb_spec (current_iteration (dqn (world st))) max_iter);
      try lia; reflexivity. }
  rewrite Hloop by reflexivity. cbn [mbind Result_bind world last_eval_iter].
  destruct (Z.geb_spec (current_iteration (dqn w)) 0); [reflexivity|lia].
Qed.

(** X14.  In evaluation mode [main] plays one episode without update and
    returns: the trace gains calls of [SelectAction], one reset and, without
    a window, the line that [Evaluate] logs; there is no call of
    [UpdateRandom], [RememberEpisode] or [Snapshot].  (The trace does not
    hold the calls of [ObscureScreen], which the episode makes on its frames
    when [FLAGS_obscure_size] is positive.) *)
Theorem main_modes_evaluate (Benchmark : DQN -> DQN) m steps fuel max_iter
    hi_score w w' out :
  FLAGS_evaluate m = true ->
  main_modes flags sqrt Benchmark m steps fuel max_iter hi_score w
    = Done (w', out) ->
  exists evs,
    Forall select_event evs /\
    ((FLAGS_gui m = true /\ trace w' = EvResetGame :: evs ++ trace w /\
      exists score, out = [LogScore score]) \/
     (FLAGS_gui m = false /\ out = [] /\
      exists avg stddev,
        trace w' = EvLogEvaluation avg stddev :: EvResetGame :: evs ++ trace w)).
Proof.
  assert (Hoff : forall w1 score,
            PlayOneEpisode flags fuel w (Some (FLAGS_evaluate_with_epsilon flags))
              false = Done (w1, score) ->
            exists evs, trace w1 = EvResetGame :: evs ++ trace w /\
                        Forall select_event evs).
  { intros w1 score Hplay.
    apply PlayOneEpisode_events in Hplay
      as (k & w2 & l2 & evs & Hreach & Htr & ->).
    destruct (reaches_continuations _ _ _ _ _ _ _ Hreach)
      as (evs' & Htr' & Hsel & _).
    rewrite Htr in Htr'. apply app_inv_tail in Htr'. subst evs'.
    exists evs. split; [reflexivity|auto]. }
  unfold main_modes. intros -> Hrun. destruct (FLAGS_gui m).
  - inv_bind Hrun as [w1 score] Hplay. injection Hrun as <- <-.
    apply Hoff in Hplay as (evs & Htr & Hall).
    exists evs. split; [exact Hall|]. left. eauto.
  - inv_bind Hrun as [w1 avg] Heval. injection Hrun as <- <-.
    apply Evaluate_Done in Heval as (w2 & score & Hplay & _ & ->).
    apply Hoff in Hplay as (evs & Htr & Hall).
    exists evs. split; [exact Hall|]. right. cbn [trace]. rewrite Htr. eauto.
Qed.

End TrainingMore.

(** ** Dumping a frame *)

Section DumpFacts.

Variable kCroppedFrameDataSize : Z.
Variable opens : string -> bool.

Lemma write_bytes_spec (frame : list Byte.byte) (i count : nat) ofs :
  (i + count <= length frame)%nat ->
  write_bytes frame i count ofs = Some (ofs ++ take count (drop i frame)).
Proof.
  revert i ofs. induction count as [|count IH]; intros i ofs Hlen;
    cbn [write_bytes].
  - rewrite take_0, app_nil_r. reflexivity.
  - destruct (lookup_lt_is_Some_2 frame i) as [b Hb]; [lia|].
    rewrite Hb. cbn [mbind option_bind]. rewrite IH by lia.
    rewrite <- app_assoc. cbn [app].
    rewrite (drop_S _ _ _ Hb). reflexivity.
Qed.

(** X15.  [SaveInputFrame] on a frame of [kCroppedFrameDataSize] bytes: if
    the file opens, it holds the bytes of the frame afterwards, in order,
    whatever it held before; no other file changes. *)
Theorem SaveInputFrame_writes_frame files (frame : list Byte.byte) filename :
  Z.of_nat (length frame) = kCroppedFrameDataSize ->
  exists files',
    SaveInputFrame kCroppedFrameDataSize opens files frame filename
      = Some files' /\
    (opens filename = true -> files' !! filename = Some frame) /\
    (opens filename = false -> files' = files) /\
    (forall other, other <> filename -> files' !! other = files !! other).
Proof.
  intros Hlen. unfold SaveInputFrame.
  rewrite write_bytes_spec by lia. cbn [mbind option_bind app].
  rewrite drop_0, firstn_all2 by lia.
  eexists. split; [reflexivity|].
  destruct (opens filename); split_and!; try discriminate; try reflexivity.
  - intros _. apply lookup_insert_eq.
  - intros other Hne. apply lookup_insert_ne. congruence.
Qed.

End DumpFacts.

(** ** The deviation that an evaluation logs *)

Section EvaluationEdges.

Context {emulator : ALEInterface} {agent : DQNInterface}.
Variable flags : Flags.
Variable sqrt : Q -> Q.

Lemma dsqrt_ddiv_zero (s d : Q) :
  (s == 0)%Q ->
  (dsqrt sqrt (ddiv s d) = None <-> (d == 0)%Q) /\
  (~ (d == 0)%Q -> dsqrt sqrt (ddiv s d) = Some (sqrt (s / d))).
Proof.
  intros Hs. unfold ddiv.
  destruct (Qeq_bool d 0) eqn:E.
  - apply Qeq_bool_iff in E. split; [split; [intros _; exact E|reflexivity]|].
    intros Hn. contradiction.
  - assert (Hd : ~ (d == 0)%Q).
    { intros Hd. apply Qeq_bool_iff in Hd. congruence. }
    assert (Hle : Qle_bool 0 (s / d) = true).
    { apply Qle_bool_iff. rewrite Hs. unfold Qdiv. rewrite Qmult_0_l.
      apply Qle_refl. }
    cbn [dsqrt mbind option_bind]. rewrite Hle.
    split; [split; [discriminate|intros Hz; contradiction]|reflexivity].
Qed.

(** X16.  With [FLAGS_repeat_games] in the range where
    [FLAGS_repeat_games - 1] does not overflow, the standard deviation that
    [Evaluate] logs is not a number exactly when [FLAGS_repeat_games] is 1;
    for every other value it is the square root of a zero. *)
Theorem Evaluate_deviation fuel w w' avg_score :
  Evaluate flags sqrt fuel w = Done (w', avg_score) ->
  INT_MIN < FLAGS_repeat_games flags <= INT_MAX ->
  exists stddev tr,
    trace w' = EvLogEvaluation avg_score stddev :: tr /\
    (stddev = None <-> FLAGS_repeat_games flags = 1) /\
    (FLAGS_repeat_games flags <> 1 ->
     exists s, (s == 0)%Q /\ stddev = Some (sqrt s)).
Proof.
  intros Hrun Hrange.
  apply Evaluate_Done in Hrun as (w1 & score & _ & _ & ->).
  set (avg := ((0 + score) / inject_Z 1)%Q).
  set (sum := (0 + (score - avg) * (score - avg))%Q).
  assert (Hsum : (sum == 0)%Q) by (subst sum avg; unfold inject_Z; field).
  replace (sub32 (FLAGS_repeat_games flags) 1)
    with (FLAGS_repeat_games flags - 1).
  2:{ symmetry. apply wrap_in_range.
      unfold in_range, INT_MIN, INT_MAX in *. lia. }
  assert (Hd : (inject_Z (FLAGS_repeat_games flags - 1) == 0)%Q
               <-> FLAGS_repeat_games flags = 1).
  { unfold Qeq, inject_Z. cbn [Qnum Qden]. lia. }
  destruct (dsqrt_ddiv_zero sum (inject_Z (FLAGS_repeat_games flags - 1)) Hsum)
    as [Hnone Hsome].
  eexists _, _. cbn [trace]. split; [reflexivity|].
  split; [rewrite Hnone; exact Hd|].
  intros Hne. eexists. split; [|apply Hsome; rewrite Hd; exact Hne].
  rewrite Hsum. unfold Qdiv. apply Qmult_0_l.
Qed.

End EvaluationEdges.

(** An evaluation on the five-act game with [FLAGS_repeat_games = 3]. *)
Lemma Evaluate_deviation_witness :
  INT_MIN < FLAGS_repeat_games (Toy.flags 2 0) <= INT_MAX /\
  exists w' avg stddev tr,
    Evaluate (Toy.flags 2 0) (fun q => q) 10 (Toy.start Toy.game1 3 0 1)
      = Done (w', avg) /\
    trace w' = EvLogEvaluation avg stddev :: tr /\
    exists s, (s == 0)%Q /\ stddev = Some s.
Proof.
  assert (Hrange : INT_MIN < FLAGS_repeat_games (Toy.flags 2 0) <= INT_MAX)
    by (vm_compute; split; [reflexivity|discriminate]).
  split; [exact Hrange|].
  destruct (Evaluate (Toy.flags 2 0) (fun q => q) 10 (Toy.start Toy.game1 3 0 1))
    as [[w' avg]| |] eqn:Hrun; [|vm_compute in Hrun; discriminate..].
  destruct (Evaluate_deviation _ _ _ _ _ _ Hrun Hrange)
    as (stddev & tr & Htr & _ & Hsome).
  exists w', avg, stddev, tr. split; [reflexivity|]. split; [exact Htr|].
  apply Hsome. vm_compute. discriminate.
Defined.

(** The evaluation episode of the five-act game, with
    [FLAGS_obscure_size = 1]. *)
Lemma PlayOneEpisode_shows_obscured_witness :
  0 < FLAGS_obscure_size (Toy.flags 2 0) /\
  exists w' score evs,
    PlayOneEpisode (Toy.flags 2 0) 10 (Toy.start Toy.game1 3 0 1)
      (Some (1 # 2)) false = Done (w', score) /\
    trace w' = EvResetGame :: evs /\
    Forall (shown_obscured (FLAGS_obscure_size (Toy.flags 2 0))) evs.
Proof.
  assert (Hsize : 0 < FLAGS_obscure_size (Toy.flags 2 0))
    by (vm_compute; reflexivity).
  split; [exact Hsize|].
  destruct (PlayOneEpisode (Toy.flags 2 0) 10 (Toy.start Toy.game1 3 0 1)
              (Some (1 # 2)) false) as [[w' score]| |] eqn:Hrun;
    [|vm_compute in Hrun; discriminate..].
  destruct (PlayOneEpisode_shows_obscured _ _ _ _ _ _ Hsize Hrun)
    as (evs & Htr & Hall).
  exists w', score, evs. split; [reflexivity|]. split; [|exact Hall].
  rewrite Htr. cbn [trace Toy.start]. rewrite app_nil_r. reflexivity.
Defined.

(** The training episode of the five-act game, on a store that holds two
    frames of an earlier episode. *)
Lemma PlayOneEpisode_keeps_old_frames_witness :
  exists w' score new,
    PlayOneEpisode (Toy.flags 2 0) 10
      (@mkWorld Toy.toy_ale Toy.toy_dqn (Toy.load Toy.game1 3) (0, 1) [7; 8] []) (Some (1 # 2)) true
      = Done (w', score) /\
    store w' = [7; 8] ++ new /\ new <> [].
Proof.
  destruct (PlayOneEpisode (Toy.flags 2 0) 10
              (@mkWorld Toy.toy_ale Toy.toy_dqn (Toy.load Toy.game1 3) (0, 1) [7; 8] []) (Some (1 # 2)) true)
    as [[w' score]| |] eqn:Hrun; [|vm_compute in Hrun; discriminate..].
  destruct (PlayOneEpisode_keeps_old_frames _ _ _ _ _ _ _ Hrun)
    as (new & Hst & Hne).
  exists w', score, new. split; [reflexivity|]. split; [exact Hst|exact Hne].
Defined.

(** Training on the five-act game with a budget of three iterations, from
    a best score of zero. *)
Lemma TrainingLoop_reaches_budget_witness :
  exists st',
    TrainingLoop (Toy.flags 2 0) (fun q => q) 5 10 3
      (mkTrain (Toy.start Toy.game1 3 0 1) 0 0 0) = Done st' /\
    3 <= current_iteration (dqn (world st')) /\ (0 <= best_score st')%Q.
Proof.
  destruct (TrainingLoop (Toy.flags 2 0) (fun q => q) 5 10 3
              (mkTrain (Toy.start Toy.game1 3 0 1) 0 0 0))
    as [st'| |] eqn:Hrun; [|vm_compute in Hrun; discriminate..].
  exists st'. split; [reflexivity|].
  exact (TrainingLoop_reaches_budget _ _ _ _ _ _ _ Hrun).
Defined.

(** An agent at iteration 5 with a budget of three iterations. *)
Lemma main_train_budget_spent_witness :
  3 <= current_iteration (dqn (Toy.start Toy.game1 3 5 1)) /\
  0 <= current_iteration (dqn (Toy.start Toy.game1 3 5 1)) /\
  main_train (Toy.flags 2 0) (fun q => q) 5 10 3 0 (Toy.start Toy.game1 3 5 1)
    = '(w', _) ← Evaluate (Toy.flags 2 0) (fun q => q) 10
                   (Toy.start Toy.game1 3 5 1);
      mret (do_Snapshot w' SavePath true true).
Proof.
  assert (H3 : 3 <= current_iteration (dqn (Toy.start Toy.game1 3 5 1)))
    by (vm_compute; discriminate).
  assert (H0 : 0 <= current_iteration (dqn (Toy.start Toy.game1 3 5 1)))
    by (vm_compute; discriminate).
  split; [exact H3|]. split; [exact H0|].
  exact (main_train_budget_spent (Toy.flags 2 0) (fun q => q) 5 10 3 0 _ H3 H0).
Defined.

(** Evaluation mode without a window, on the five-act game. *)
Lemma main_modes_evaluate_witness :
  exists w' out evs avg stddev,
    main_modes (Toy.flags 2 0) (fun q => q) (fun d => d)
      {| FLAGS_evaluate := true; FLAGS_gui := false; FLAGS_time := false |}
      5 10 3 0 (Toy.start Toy.game1 3 0 1) = Done (w', out) /\
    Forall select_event evs /\
    trace w' = EvLogEvaluation avg stddev :: EvResetGame :: evs.
Proof.
  set (m := {| FLAGS_evaluate := true; FLAGS_gui := false; FLAGS_time := false |}).
  destruct (main_modes (Toy.flags 2 0) (fun q => q) (fun d => d) m
              5 10 3 0 (Toy.start Toy.game1 3 0 1))
    as [[w' out]| |] eqn:Hrun; [|vm_compute in Hrun; discriminate..].
  destruct (main_modes_evaluate (Toy.flags 2 0) (fun q => q) (fun d => d) m
              5 10 3 0 _ _ _ (eq_refl : FLAGS_evaluate m = true) Hrun)
    as (evs & Hall & [(Hgui & _)|(_ & _ & avg & stddev & Htr)]);
    [discriminate Hgui|].
  exists w', out, evs, avg, stddev. split; [reflexivity|]. split; [exact Hall|].
  rewrite Htr. cbn [trace Toy.start]. rewrite app_nil_r. reflexivity.
Defined.

(** A frame of two bytes, dumped over a file that held one byte. *)
Lemma SaveInputFrame_writes_frame_witness :
  exists files',
    SaveInputFrame 2 (fun _ => true) {["frame0.bin" := [Byte.x00]]}
      [Byte.x2a; Byte.x07] "frame0.bin" = Some files' /\
    files' !! "frame0.bin" = Some [Byte.x2a; Byte.x07].
Proof.
  destruct (SaveInputFrame_writes_frame 2 (fun _ => true)
              {["frame0.bin" := [Byte.x00]]} [Byte.x2a; Byte.x07] "frame0.bin"
              eq_refl) as (files' & Hrun & Hnew & _).
  exists files'. split; [exact Hrun|]. apply Hnew. reflexivity.
Defined.
